(** * nexus: an event-driven finite state machine

    Shallow embedding of [fsm.go] and of the package's error types, followed
    by the properties of the registry, of [New] and of [Trigger].

    Conventions of the embedding.
    - [State] and [Event] are Go string types; they are Rocq strings.
    - [map[State]struct{}] is a finite set of states, a [gset string]; a
      registry is one whose map was made, as [NewStates] does.
    - Go [int] values ([maxSize], [maxStates], [len]) are integers in [Z];
      the code only compares them, so no wrap-around is involved.
    - A value of the interface type [error] is an [option error]; [None] is
      the nil interface.
    - A payload [*T] is a value of an arbitrary type [Ptr].  Everything an
      action can read or write through that pointer, and any other state its
      closure captures, is the [World], which every action takes and returns.
      An action is a total function: one that panics, never returns, or calls
      back into the machine it runs under (and so blocks on the lock the
      caller holds) is outside the model.
    - A slice is either the nil slice or a list of elements.
    - [sync.RWMutex] and the zerolog calls are left out: every method is
      modelled as the body it runs between [Lock] and [Unlock], and the
      diagnostic events it emits do not influence what it computes.  The
      logger itself is kept as the configuration it was built from. *)

From stdpp Require Import base strings gmap sets list.
From Stdlib Require Import ZArith Lia.

Set Warnings "-register-all,-clear-no-such-hyp".

Open Scope string_scope.
Open Scope list_scope.
Open Scope Z_scope.

(** ** Basic types *)

(** [type State string], [type Event string]. *)
Abbreviation State := string (only parsing).
Abbreviation Event := string (only parsing).

(** A Go slice: [nil] or a backing sequence. *)
Inductive slice (A : Type) : Type :=
| nil_slice : slice A
| mk_slice : list A -> slice A.
Arguments nil_slice {A}.
Arguments mk_slice {A} _.

(** The elements a [range] loop visits; [len(s)] is their number. *)
Definition elems {A : Type} (s : slice A) : list A :=
  match s with
  | nil_slice => []
  | mk_slice l => l
  end.

(** [append(s, x)]. *)
Definition append {A : Type} (s : slice A) (x : A) : slice A :=
  mk_slice (elems s ++ [x]).

(** ** The state registry *)

(** [type States struct { stateMap map[State]struct{}; maxSize int }]. *)
Record States : Type := mkStates {
  stateMap : gset string;
  maxSize : Z
}.

(** [NewStates]. *)
Definition NewStates (size : Z) : States :=
  {| stateMap := ∅; maxSize := size |}.

(** [len(s.stateMap)]. *)
Definition len_stateMap (s : States) : Z := Z.of_nat (size (stateMap s)).

(** [States.limitReached]. *)
Definition limitReached (s : States) : bool :=
  (0 <? maxSize s) && (maxSize s <=? len_stateMap s).

(** [States.Exists]. *)
Definition Exists (s : States) (state : State) : bool :=
  bool_decide (state ∈ stateMap s).

Section Machine.

(** [context.Context], the payload pointer [*T], the state reachable from
    actions, the error values of caller code, and [io.Writer]. *)
Context {Ctx Ptr World ForeignErr Writer : Type}.
Variable os_Stdout : Writer.

(** ** Errors *)

(** The error values this package produces, and those of its callers.
    [StateErrorRef] and [TransitionErrorRef] are [*StateError] and
    [*TransitionError] with their fields; the sentinels are the package-level
    [errors.New] values the machine refers to. *)
Inductive error : Type :=
| ErrStateAlreadyExists : error
| ErrStateSizeExceeded : error
| StateErrorRef (SE_State : State) (SE_Op : string) (SE_Err : option error) : error
| TransitionErrorRef (TE_Message : string) (TE_State : State) (TE_Event : Event)
                     (TE_Err : option error) : error
| Foreign (e : ForeignErr) : error.

(** [Unwrap] of the two struct errors. *)
Definition Unwrap (e : error) : option error :=
  match e with
  | StateErrorRef _ _ err => err
  | TransitionErrorRef _ _ _ err => err
  | _ => None
  end.

(** [States.Add]: the error returned and the registry afterwards. *)
Definition Add (s : States) (state : State) : option error * States :=
  if Exists s state then
    (Some (StateErrorRef state "Add" (Some ErrStateAlreadyExists)), s)
  else if limitReached s then
    (Some (StateErrorRef state "Add" (Some ErrStateSizeExceeded)), s)
  else
    (None, {| stateMap := {[state]} ∪ stateMap s; maxSize := maxSize s |}).

(** ** Actions and transitions *)

(** [type ActionFunc[T]]: a function of a context and a payload pointer that
    returns a payload pointer and an error; here it also takes the world it
    runs in and returns the one it leaves behind. *)
Definition ActionFunc : Type :=
  Ctx -> Ptr -> World -> (Ptr * option error) * World.

(** [type Action[T] struct { Name string; Fn ActionFunc[T] }]; a nil [Fn] is
    [None]. *)
Record Action : Type := mkAction {
  Name : string;
  Fn : option ActionFunc
}.

(** [type Transition[T] struct { From, To State; Event Event; Action []Action[T] }].
    The fields called [Event] and [Action] in the source are [Event_] and
    [Actions] here, the plain names being those of the types. *)
Record Transition : Type := mkTransition {
  From : State;
  To : State;
  Event_ : Event;
  Actions : slice Action
}.

(** ** Options *)

(** [zerolog.Level] is an [int8]; [zerolog.InfoLevel] is 1. *)
Definition zerolog_InfoLevel : Z := 1.

(** [type FSMOptions struct]. *)
Record FSMOptions : Type := mkFSMOptions {
  LogLevel : Z;
  LogOutput : Writer;
  maxStates : Z;
  UseStdOut : bool
}.

(** [DefaultOptions]; [UseStdOut] has its zero value. *)
Definition DefaultOptions : FSMOptions :=
  {| LogLevel := zerolog_InfoLevel;
     LogOutput := os_Stdout;
     maxStates := 0;
     UseStdOut := false |}.

(** [type FSMOptionFunc]: a function updating the options it points to; here
    it returns the options after the call. *)
Definition FSMOptionFunc : Type := FSMOptions -> FSMOptions.

Definition WithLogLevel (level : Z) : FSMOptionFunc :=
  fun opts => {| LogLevel := level; LogOutput := LogOutput opts;
                 maxStates := maxStates opts; UseStdOut := UseStdOut opts |}.

Definition WithLogOutput (w : Writer) : FSMOptionFunc :=
  fun opts => {| LogLevel := LogLevel opts; LogOutput := w;
                 maxStates := maxStates opts; UseStdOut := UseStdOut opts |}.

Definition WithLogConsole : FSMOptionFunc :=
  fun opts => {| LogLevel := LogLevel opts; LogOutput := LogOutput opts;
                 maxStates := maxStates opts; UseStdOut := true |}.

Definition WithMaxStates (max : Z) : FSMOptionFunc :=
  fun opts => {| LogLevel := LogLevel opts; LogOutput := LogOutput opts;
                 maxStates := max; UseStdOut := UseStdOut opts |}.

(** A [zerolog.Logger], as what [setLogger] builds it from. *)
Record Logger : Type := mkLogger {
  logConsole : bool;
  logSink : Writer;
  logThreshold : Z
}.

(** [setLogger]. *)
Definition setLogger (useStdOut : bool) (logOutput : Writer) (level : Z) : Logger :=
  {| logConsole := useStdOut; logSink := logOutput; logThreshold := level |}.

(** ** The machine *)

(** [type FSM[T] struct], without the mutex.  [states] is a pointer and
    [transitions] a slice; both can be nil in a machine not built by [New].
    An empty [errorState] and a [None] [errorHandler] are the zero values. *)
Record FSM : Type := mkFSM {
  options : FSMOptions;
  logger : Logger;
  states : option States;
  currentState : State;
  transitions : slice Transition;
  errorState : State;
  errorHandler : option ActionFunc
}.

(** Assignments to single fields. *)
Definition set_currentState (f : FSM) (s : State) : FSM :=
  {| options := options f; logger := logger f; states := states f;
     currentState := s; transitions := transitions f;
     errorState := errorState f; errorHandler := errorHandler f |}.

Definition set_states (f : FSM) (s : option States) : FSM :=
  {| options := options f; logger := logger f; states := s;
     currentState := currentState f; transitions := transitions f;
     errorState := errorState f; errorHandler := errorHandler f |}.

Definition set_transitions (f : FSM) (ts : slice Transition) : FSM :=
  {| options := options f; logger := logger f; states := states f;
     currentState := currentState f; transitions := ts;
     errorState := errorState f; errorHandler := errorHandler f |}.

(** What a call ends in: a panic, or a return. *)
Inductive panic_value : Type :=
| PanicStatesNil : panic_value
| PanicTransitionsNil : panic_value
| PanicInitialState (err : error) : panic_value.

Inductive outcome (A : Type) : Type :=
| Panics (p : panic_value) : outcome A
| Returns (a : A) : outcome A.
Arguments Panics {A} p.
Arguments Returns {A} a.

(** [FSM.SetLogLevel]. *)
Definition SetLogLevel (f : FSM) (level : Z) : FSM :=
  {| options := WithLogLevel level (options f);
     logger := {| logConsole := logConsole (logger f);
                  logSink := logSink (logger f);
                  logThreshold := level |};
     states := states f; currentState := currentState f;
     transitions := transitions f;
     errorState := errorState f; errorHandler := errorHandler f |}.

(** [FSM.RegisterState]: the error returned and the machine afterwards. *)
Definition RegisterState (f : FSM) (state : State) : outcome (option error * FSM) :=
  match states f with
  | None => Panics PanicStatesNil
  | Some s =>
      let '(err, s') := Add s state in
      match err with
      | Some e => Returns (Some e, set_states f (Some s'))
      | None => Returns (None, set_states f (Some s'))
      end
  end.

(** [New]. *)
Definition New (initialState : State) (opts_ : list FSMOptionFunc) : outcome FSM :=
  let opts := fold_left (fun o opt => opt o) opts_ DefaultOptions in
  let fsm :=
    {| currentState := initialState;
       options := opts;
       logger := setLogger (UseStdOut opts) (LogOutput opts) (LogLevel opts);
       states := Some (NewStates (maxStates opts));
       transitions := mk_slice [];
       errorState := EmptyString;
       errorHandler := None |} in
  match RegisterState fsm initialState with
  | Panics p => Panics p
  | Returns (Some err, _) => Panics (PanicInitialState err)
  | Returns (None, fsm') => Returns fsm'
  end.

(** [FSM.AddTransition]. *)
Definition AddTransition (f : FSM) (from to : State) (event : Event)
    (actions : slice Action) : outcome FSM :=
  match transitions f with
  | nil_slice => Panics PanicTransitionsNil
  | mk_slice _ =>
      Returns (set_transitions f
        (append (transitions f)
           {| From := from; To := to; Event_ := event; Actions := actions |}))
  end.

(** [FSM.GetState]. *)
Definition GetState (f : FSM) : State := currentState f.

(** [FSM.SetState]. *)
Definition SetState (f : FSM) (s : State) : FSM := set_currentState f s.

(** [FSM.SetErrorHandler]. *)
Definition SetErrorHandler (f : FSM) (errorState_ : State)
    (handler : option ActionFunc) : FSM :=
  {| options := options f; logger := logger f; states := states f;
     currentState := currentState f; transitions := transitions f;
     errorState := errorState_; errorHandler := handler |}.

(** [FSM.handleError].  The handler's returned payload and error are dropped
    (the error only reaches the log); what it did to the world stays. *)
Definition handleError (f : FSM) (ctx : Ctx) (args : Ptr)
    (originalErr : option error) (w : World) : FSM * World :=
  let w1 :=
    match errorHandler f with
    | Some h => let '(_, _, w') := h ctx args w in w'
    | None => w
    end in
  if decide (errorState f ≠ EmptyString) then (set_currentState f (errorState f), w1)
  else (f, w1).

(** What [Trigger] gives back and leaves behind. *)
Record TriggerResult : Type := mkTriggerResult {
  ret_args : Ptr;
  ret_err : option error;
  machine : FSM;
  world : World
}.

(** The guard of every fallback: a handler is set, or the error state is not
    the empty string. *)
Definition fallbackConfigured (f : FSM) : bool :=
  match errorHandler f with
  | Some _ => true
  | None => bool_decide (errorState f ≠ EmptyString)
  end.

(** The lookup loop of [Trigger]: the values of [nextState], [handlers] and
    [transitionFound] when the loop is left. *)
Fixpoint Trigger_lookup (ts : list Transition) (cur : State) (event : Event)
    : State * slice Action * bool :=
  match ts with
  | [] => (EmptyString, nil_slice, false)
  | transition :: rest =>
      if decide (From transition = cur ∧ Event_ transition = event)
      then (To transition, Actions transition, true)
      else Trigger_lookup rest cur event
  end.

(** The action loop of [Trigger] from a given position, with the commit that
    follows it. *)
Fixpoint Trigger_run (f : FSM) (ctx : Ctx) (event : Event) (nextState : State)
    (handlers : list Action) (args : Ptr) (w : World) : TriggerResult :=
  match handlers with
  | [] =>
      {| ret_args := args; ret_err := None;
         machine := set_currentState f nextState; world := w |}
  | handler :: rest =>
      match Fn handler with
      | None =>
          let err :=
            TransitionErrorRef "no handler function defined" (currentState f) event None in
          let '(f1, w1) :=
            if fallbackConfigured f then handleError f ctx args (Some err) w
            else (f, w) in
          {| ret_args := args; ret_err := Some err; machine := f1; world := w1 |}
      | Some fn =>
          let '(args', err, w') := fn ctx args w in
          match err with
          | Some e =>
              let '(f1, w1) :=
                if fallbackConfigured f then handleError f ctx args' (Some e) w'
                else (f, w') in
              {| ret_args := args'; ret_err := Some e; machine := f1; world := w1 |}
          | None => Trigger_run f ctx event nextState rest args' w'
          end
      end
  end.

(** [FSM.Trigger]. *)
Definition Trigger (f : FSM) (ctx : Ctx) (event : Event) (args : Ptr) (w : World)
    : TriggerResult :=
  let '(nextState, handlers, transitionFound) :=
    Trigger_lookup (elems (transitions f)) (currentState f) event in
  if negb transitionFound then
    let err := TransitionErrorRef "no transition found" (currentState f) event None in
    let '(f1, w1) :=
      if fallbackConfigured f then handleError f ctx args (Some err) w
      else (f, w) in
    {| ret_args := args; ret_err := Some err; machine := f1; world := w1 |}
  else Trigger_run f ctx event nextState (elems handlers) args w.

End Machine.

Arguments Panics {ForeignErr A} p.
Arguments Returns {ForeignErr A} a.

(** ** Reference notions

    The notions the properties below are stated with.  They follow the words
    of the specification, not the code: the transition chosen is the first of
    those that match, a chain is a left fold of its action functions, and
    registrations are calls made one after the other. *)

Section Reference.

Context {Ctx Ptr World ForeignErr Writer : Type}.

Local Abbreviation error := (@error ForeignErr).
Local Abbreviation ActionFunc := (@ActionFunc Ctx Ptr World ForeignErr).
Local Abbreviation Action := (@Action Ctx Ptr World ForeignErr).
Local Abbreviation Transition := (@Transition Ctx Ptr World ForeignErr).
Local Abbreviation FSM := (@FSM Ctx Ptr World ForeignErr Writer).

(** The two errors of [Add], and the two [Trigger] builds itself. *)
Definition already_exists (state : State) : error :=
  StateErrorRef state "Add" (Some ErrStateAlreadyExists).

Definition size_exceeded (state : State) : error :=
  StateErrorRef state "Add" (Some ErrStateSizeExceeded).

Definition no_transition_found (state : State) (event : Event) : error :=
  TransitionErrorRef "no transition found" state event None.

Definition no_handler_defined (state : State) (event : Event) : error :=
  TransitionErrorRef "no handler function defined" state event None.

(** A transition matches when its [From] is the given state and its event the
    given event. *)
Definition matches (fromState : State) (event : Event) (t : Transition) : Prop :=
  From t = fromState ∧ Event_ t = event.

#[global] Instance matches_dec fromState event t : Decision (matches fromState event t).
Proof. unfold matches. apply _. Defined.

(** The transitions of a table that match, in insertion order. *)
Definition matching (ts : list Transition) (fromState : State) (event : Event)
    : list Transition :=
  filter (matches fromState event) ts.

(** One step of a chain: the function is applied to the payload the previous
    one returned, in the world it left; its error is looked at separately. *)
Definition chain_step (ctx : Ctx) (acc : Ptr * World) (fn : ActionFunc) : Ptr * World :=
  ((fn ctx acc.1 acc.2).1.1, (fn ctx acc.1 acc.2).2).

(** A chain as a left fold over the initial payload. *)
Definition chain_fold (ctx : Ctx) (fns : list ActionFunc) (args : Ptr) (w : World)
    : Ptr * World :=
  fold_left (chain_step ctx) fns (args, w).

(** Every function of the chain, run in its turn, returns a nil error. *)
Fixpoint chain_all_nil (ctx : Ctx) (fns : list ActionFunc) (args : Ptr) (w : World)
    : Prop :=
  match fns with
  | [] => True
  | fn :: rest =>
      (fn ctx args w).1.2 = None ∧
      chain_all_nil ctx rest (chain_step ctx (args, w) fn).1 (chain_step ctx (args, w) fn).2
  end.

(** The actions [hs] are bound to the functions [fns], none being nil. *)
Definition bound_to (hs : list Action) (fns : list ActionFunc) : Prop :=
  map Fn hs = map Some fns.

(** The machine with its error fallback taken away. *)
Definition without_fallback (f : FSM) : FSM := SetErrorHandler f EmptyString None.

(** What is left of a failed call: the payload and the error go back to the
    caller; the handler, when there is one, has run on that payload; the
    machine is in its error state when that state is not the empty string. *)
Definition failed_call (f : FSM) (ctx : Ctx) (args : Ptr) (e : error) (w : World)
    : TriggerResult :=
  {| ret_args := args;
     ret_err := Some e;
     machine := if decide (errorState f = EmptyString) then f
                else set_currentState f (errorState f);
     world := match errorHandler f with
              | Some h => (h ctx args w).2
              | None => w
              end |}.

(** What is left of a call that ran the chain through. *)
Definition committed_call (f : FSM) (nextState : State) (args : Ptr) (w : World)
    : TriggerResult :=
  {| ret_args := args; ret_err := None;
     machine := set_currentState f nextState; world := w |}.

(** Successive [Add] calls: the errors returned, in call order, and the
    registry after the last call. *)
Fixpoint AddAll (s : States) (l : list State) : list (option error) * States :=
  match l with
  | [] => ([], s)
  | state :: rest =>
      let '(err, s1) := Add s state in
      let '(errs, s2) := AddAll s1 rest in
      (err :: errs, s2)
  end.

(** Successive [RegisterState] calls on a machine. *)
Fixpoint RegisterAll (f : FSM) (l : list State) : outcome (list (option error) * FSM) :=
  match l with
  | [] => Returns ([], f)
  | state :: rest =>
      match RegisterState f state with
      | Panics p => Panics p
      | Returns (err, f1) =>
          match RegisterAll f1 rest with
          | Panics p => Panics p
          | Returns (errs, f2) => Returns (err :: errs, f2)
          end
      end
  end.

(** A state is registered in a machine. *)
Definition registered (f : FSM) (state : State) : Prop :=
  ∃ reg, states f = Some reg ∧ state ∈ stateMap reg.

End Reference.

(** ** The rest of the package

    [States.Keys], the [Error] methods, and the notions the properties of
    whole call sequences are stated with. *)

Section Surroundings.

Context {Ctx Ptr World ForeignErr Writer : Type}.

Local Abbreviation error := (@error ForeignErr).
Local Abbreviation ActionFunc := (@ActionFunc Ctx Ptr World ForeignErr).
Local Abbreviation Action := (@Action Ctx Ptr World ForeignErr).
Local Abbreviation Transition := (@Transition Ctx Ptr World ForeignErr).
Local Abbreviation FSM := (@FSM Ctx Ptr World ForeignErr Writer).
Local Abbreviation FSMOptions := (@FSMOptions Writer).
Local Abbreviation FSMOptionFunc := (@FSMOptionFunc Writer).

(** [States.Keys] appends the keys in the order the [range] over the map
    visits them, an order Go leaves open: [keys] is a possible result when it
    lists the members of the map, each once, in some order. *)
Definition Keys (s : States) (keys : list State) : Prop :=
  keys ≡ₚ elements (stateMap s).

(** The text of the error values of caller code. *)
Variable foreign_Error : ForeignErr -> string.

(** The [Error] methods of [StateError] and [TransitionError], and the texts
    of the two sentinels.  The verb for the [State], [Event], [Op] and
    [Message] fields prints the string; the verb for the [Err] field prints
    the text of the error, and [<nil>] for a nil one. *)
Fixpoint Error (e : error) : string :=
  match e with
  | ErrStateAlreadyExists => "state already exists"
  | ErrStateSizeExceeded => "maximum number of states exceeded"
  | StateErrorRef state op err =>
      String.append "state error in state '"
        (String.append state
           (String.append "' during "
              (String.append op
                 (String.append ": "
                    match err with
                    | Some e' => Error e'
                    | None => "<nil>"
                    end))))
  | TransitionErrorRef message state event err =>
      String.append "transition error in state '"
        (String.append state
           (String.append "' on event '"
              (String.append event
                 (String.append "': "
                    (String.append message
                       (String.append ": "
                          match err with
                          | Some e' => Error e'
                          | None => "<nil>"
                          end))))))
  | Foreign u => foreign_Error u
  end.

(** The options the package offers, as values. *)
Inductive option_call : Type :=
| OptLogLevel (level : Z)
| OptLogOutput (w : Writer)
| OptLogConsole
| OptMaxStates (max : Z).

Definition option_func (o : option_call) : FSMOptionFunc :=
  match o with
  | OptLogLevel level => WithLogLevel level
  | OptLogOutput w => WithLogOutput w
  | OptLogConsole => WithLogConsole
  | OptMaxStates max => WithMaxStates max
  end.

Definition level_of (o : option_call) : option Z :=
  match o with OptLogLevel level => Some level | _ => None end.

Definition output_of (o : option_call) : option Writer :=
  match o with OptLogOutput w => Some w | _ => None end.

Definition max_of (o : option_call) : option Z :=
  match o with OptMaxStates max => Some max | _ => None end.

Definition is_console (o : option_call) : bool :=
  match o with OptLogConsole => true | _ => false end.

(** The methods of a machine, as calls a client makes one after the other. *)
Inductive call : Type :=
| DoRegisterState (state : State)
| DoAddTransition (from to : State) (event : Event) (actions : slice Action)
| DoTrigger (ctx : Ctx) (event : Event) (args : Ptr)
| DoSetState (s : State)
| DoSetErrorHandler (errorState_ : State) (handler : option ActionFunc)
| DoSetLogLevel (level : Z).

(** One call: the machine and the world after it, whatever it returned. *)
Definition do_call (f : FSM) (w : World) (c : call) : outcome (FSM * World) :=
  match c with
  | DoRegisterState state =>
      match RegisterState f state with
      | Panics p => Panics p
      | Returns (_, f') => Returns (f', w)
      end
  | DoAddTransition from to event actions =>
      match AddTransition f from to event actions with
      | Panics p => Panics p
      | Returns f' => Returns (f', w)
      end
  | DoTrigger ctx event args =>
      Returns (machine (Trigger f ctx event args w), world (Trigger f ctx event args w))
  | DoSetState s => Returns (SetState f s, w)
  | DoSetErrorHandler es h => Returns (SetErrorHandler f es h, w)
  | DoSetLogLevel level => Returns (SetLogLevel f level, w)
  end.

Fixpoint do_calls (f : FSM) (w : World) (cs : list call) : outcome (FSM * World) :=
  match cs with
  | [] => Returns (f, w)
  | c :: rest =>
      match do_call f w c with
      | Panics p => Panics p
      | Returns (f', w') => do_calls f' w' rest
      end
  end.

(** The transition a call adds, and the state it asks to register. *)
Definition added (c : call) : option Transition :=
  match c with
  | DoAddTransition from to event actions =>
      Some {| From := from; To := to; Event_ := event; Actions := actions |}
  | _ => None
  end.

Definition asked (c : call) : option State :=
  match c with
  | DoRegisterState state => Some state
  | _ => None
  end.

(** The fallback a call sets, the log level it sets, and whether it is one
    of the two calls that assign to the current state. *)
Definition fallback_set (c : call) : option (State * option ActionFunc) :=
  match c with
  | DoSetErrorHandler es h => Some (es, h)
  | _ => None
  end.

Definition level_set (c : call) : option Z :=
  match c with
  | DoSetLogLevel level => Some level
  | _ => None
  end.

Definition moves (c : call) : bool :=
  match c with
  | DoTrigger _ _ _ | DoSetState _ => true
  | _ => false
  end.

(** Two results of [Trigger] that a caller cannot tell apart: the payload and
    the error returned, the world left, and the state [GetState] gives. *)
Definition same_outcome (r r' : @TriggerResult Ctx Ptr World ForeignErr Writer) : Prop :=
  ret_args r = ret_args r' ∧ ret_err r = ret_err r' ∧ world r = world r'
  ∧ GetState (machine r) = GetState (machine r').

End Surroundings.

(** * Sample machines

    Payloads are cells of a store of strings: a pointer is [None] (nil) or
    the index of a cell, and the world is the store.  Caller errors are
    [errors.New] values, named by their message. *)

Module Demo.

Definition ActionFn : Type := @ActionFunc unit (option nat) (list string) string.
Definition Act : Type := @Action unit (option nat) (list string) string.
Definition Machine : Type := @FSM unit (option nat) (list string) string string.
Definition Result : Type := @TriggerResult unit (option nat) (list string) string string.

(** [os.Stdout]. *)
Definition stdout : string := "stdout".

(** Sequencing of calls that may panic. *)
Definition and_then {A B : Type} (o : @outcome string A) (k : A -> @outcome string B)
    : @outcome string B :=
  match o with
  | Panics p => Panics p
  | Returns a => k a
  end.

(** The zero value of the machine type, where a call chain that panicked
    ends up. *)
Definition zero : Machine :=
  {| options := {| LogLevel := 0; LogOutput := EmptyString; maxStates := 0;
                   UseStdOut := false |};
     logger := {| logConsole := false; logSink := EmptyString; logThreshold := 0 |};
     states := None; currentState := EmptyString; transitions := nil_slice;
     errorState := EmptyString; errorHandler := None |}.

Definition built (o : @outcome string Machine) : Machine :=
  match o with
  | Returns m => m
  | Panics _ => zero
  end.

(** Appends [sfx] to the string the payload points to. *)
Definition suffix (sfx : string) : ActionFn :=
  fun _ p w =>
    match p with
    | Some i => (p, None, alter (fun v => String.append v sfx) i w)
    | None => (p, Some (Foreign "nil payload"), w)
    end.

(** Puts [pfx] before the string the payload points to. *)
Definition prefix (pfx : string) : ActionFn :=
  fun _ p w =>
    match p with
    | Some i => (p, None, alter (fun v => String.append pfx v) i w)
    | None => (p, Some (Foreign "nil payload"), w)
    end.

(** Returns the error [errors.New(msg)] and a nil payload, after marking the
    cell it was given. *)
Definition failing (msg : string) : ActionFn :=
  fun _ p w =>
    match p with
    | Some i => (None, Some (Foreign msg), alter (fun v => String.append v "_failed") i w)
    | None => (None, Some (Foreign msg), w)
    end.

(** An error handler that records its call in a new cell and fails. *)
Definition failing_handler : ActionFn :=
  fun _ p w => (p, Some (Foreign "handler failed"), w ++ ["error_handled"]).

(** An error handler that records its call in a new cell and succeeds. *)
Definition quiet_handler : ActionFn :=
  fun _ p w => (p, None, w ++ ["error_handled"]).

Definition act (name : string) (fn : ActionFn) : Act :=
  {| Name := name; Fn := Some fn |}.

Definition unbound (name : string) : Act :=
  {| Name := name; Fn := None |}.

(** idle, processing, done. *)
Definition lifecycle : Machine :=
  built (and_then (New stdout "idle" [])
    (fun m => and_then (RegisterState m "processing")
    (fun '(_, m) => and_then (RegisterState m "done")
    (fun '(_, m) => and_then
       (AddTransition m "idle" "processing" "start"
          (mk_slice [act "process_request" (prefix "processed: ")]))
    (fun m => AddTransition m "processing" "done" "complete" nil_slice))))).

(** Two transitions for the same state and event, [b] added before [c]. *)
Definition t_ab : @Transition unit (option nat) (list string) string :=
  {| From := "a"; To := "b"; Event_ := "x";
     Actions := mk_slice [act "one" (suffix "_1")] |}.

Definition t_ac : @Transition unit (option nat) (list string) string :=
  {| From := "a"; To := "c"; Event_ := "x";
     Actions := mk_slice [act "two" (suffix "_2")] |}.

Definition ambiguous : Machine :=
  built (and_then (New stdout "a" [])
    (fun m => and_then (AddTransition m "q" "r" "x" nil_slice)
    (fun m => and_then (AddTransition m "a" "b" "x" (Actions t_ab))
    (fun m => AddTransition m "a" "c" "x" (Actions t_ac))))).

(** A chain of three actions. *)
Definition three : list Act :=
  [act "one" (suffix "_1"); act "two" (suffix "_2"); act "three" (suffix "_3")].

Definition t_chain : @Transition unit (option nat) (list string) string :=
  {| From := "a"; To := "b"; Event_ := "go"; Actions := mk_slice three |}.

Definition chained : Machine :=
  built (and_then (New stdout "a" [])
    (fun m => AddTransition m "a" "b" "go" (mk_slice three))).

(** A chain whose second action fails. *)
Definition broken : list Act :=
  [act "one" (suffix "_1"); act "two" (failing "action failed");
   act "three" (suffix "_3")].

Definition t_break : @Transition unit (option nat) (list string) string :=
  {| From := "a"; To := "b"; Event_ := "go"; Actions := mk_slice broken |}.

Definition breaking : Machine :=
  built (and_then (New stdout "a" [])
    (fun m => AddTransition m "a" "b" "go" (mk_slice broken))).

(** The same machine with a fallback whose handler fails. *)
Definition guarded : Machine :=
  SetErrorHandler breaking "error_state" (Some failing_handler).

(** A chain whose second action has no function. *)
Definition gapped_chain : list Act :=
  [act "one" (suffix "_1"); unbound "two"; act "three" (suffix "_3")].

Definition t_gap : @Transition unit (option nat) (list string) string :=
  {| From := "a"; To := "b"; Event_ := "go"; Actions := mk_slice gapped_chain |}.

Definition gapped : Machine :=
  built (and_then (New stdout "a" [])
    (fun m => AddTransition m "a" "b" "go" (mk_slice gapped_chain))).

(** The chain of [breaking] cut after the action that fails, to another
    state. *)
Definition t_cut : @Transition unit (option nat) (list string) string :=
  {| From := "a"; To := "z"; Event_ := "go";
     Actions := mk_slice [act "one" (suffix "_1"); act "two" (failing "action failed")] |}.

Definition cut : Machine :=
  built (and_then (New stdout "a" [])
    (fun m => AddTransition m "a" "z" "go" (Actions t_cut))).

(** A few calls on a machine. *)
Definition calls : list (@call unit (option nat) (list string) string) :=
  [DoRegisterState "b"; DoSetErrorHandler "oops" None;
   DoAddTransition "a" "b" "go" (mk_slice three); DoSetLogLevel 0;
   DoSetErrorHandler "failed" (Some quiet_handler)].

(** The text of an [errors.New] value is its message. *)
Definition message : string -> string := fun msg => msg.

End Demo.

(** * Properties *)

Section Properties.

Context {Ctx Ptr World ForeignErr Writer : Type}.
Variable os_Stdout : Writer.

Local Abbreviation error := (@error ForeignErr).
Local Abbreviation ActionFunc := (@ActionFunc Ctx Ptr World ForeignErr).
Local Abbreviation Action := (@Action Ctx Ptr World ForeignErr).
Local Abbreviation Transition := (@Transition Ctx Ptr World ForeignErr).
Local Abbreviation FSM := (@FSM Ctx Ptr World ForeignErr Writer).
Local Abbreviation TriggerResult := (@TriggerResult Ctx Ptr World ForeignErr Writer).
Local Abbreviation Add := (@Add ForeignErr).
Local Abbreviation AddAll := (@AddAll ForeignErr).

Implicit Types (s reg : States) (state : State) (f g : FSM) (t : Transition).

(** ** The registry *)

Lemma Exists_true s state : Exists s state = true ↔ state ∈ stateMap s.
Proof. unfold Exists. apply bool_decide_eq_true. Qed.

Lemma Exists_false s state : Exists s state = false ↔ state ∉ stateMap s.
Proof. unfold Exists. apply bool_decide_eq_false. Qed.

Lemma limitReached_true s :
  limitReached s = true ↔ 0 < maxSize s ∧ maxSize s <= Z.of_nat (size (stateMap s)).
Proof.
  unfold limitReached, len_stateMap.
  rewrite andb_true_iff, Z.ltb_lt, Z.leb_le. done.
Qed.

Lemma limitReached_false s :
  limitReached s = false ↔ maxSize s <= 0 ∨ Z.of_nat (size (stateMap s)) < maxSize s.
Proof.
  unfold limitReached, len_stateMap.
  rewrite andb_false_iff, Z.ltb_ge, Z.leb_gt. done.
Qed.

Lemma Add_member s state :
  state ∈ stateMap s → Add s state = (Some (already_exists state), s).
Proof.
  intros Hin. unfold Add. apply Exists_true in Hin. by rewrite Hin.
Qed.

Lemma Add_full s state :
  state ∉ stateMap s → limitReached s = true →
  Add s state = (Some (size_exceeded state), s).
Proof.
  intros Hnin Hfull. unfold Add. apply Exists_false in Hnin.
  by rewrite Hnin, Hfull.
Qed.

Lemma Add_fresh s state :
  state ∉ stateMap s → limitReached s = false →
  Add s state =
    (None, {| stateMap := {[state]} ∪ stateMap s; maxSize := maxSize s |}).
Proof.
  intros Hnin Hroom. unfold Add. apply Exists_false in Hnin.
  by rewrite Hnin, Hroom.
Qed.

(** Distinct new states fit as long as the bound, when there is one, is not
    passed; the registry then holds them all. *)
Lemma AddAll_fresh (l : list State) : ∀ s,
  NoDup l → (∀ x, x ∈ l → x ∉ stateMap s) →
  (maxSize s <= 0 ∨ Z.of_nat (size (stateMap s)) + Z.of_nat (length l) <= maxSize s) →
  ∃ reg, AddAll s l = (replicate (length l) None, reg)
         ∧ stateMap reg = list_to_set l ∪ stateMap s
         ∧ maxSize reg = maxSize s
         ∧ size (stateMap reg) = (size (stateMap s) + length l)%nat.
Proof.
  induction l as [|x l IH]; intros s Hnd Hnew Hroom.
  - exists s. simpl. repeat split; [set_solver | lia].
  - apply NoDup_cons in Hnd as [Hx Hnd].
    assert (Hxs : x ∉ stateMap s) by (apply Hnew; set_solver).
    assert (Hlim : limitReached s = false).
    { apply limitReached_false. simpl length in Hroom. lia. }
    set (s1 := {| stateMap := {[x]} ∪ stateMap s; maxSize := maxSize s |}).
    assert (Hsz : size (stateMap s1) = S (size (stateMap s))).
    { simpl. rewrite size_union by set_solver. by rewrite size_singleton. }
    destruct (IH s1) as (reg & HA & Hmap & Hmax & Hsize).
    + done.
    + intros y Hy. simpl. set_solver.
    + rewrite Hsz. simpl maxSize. simpl length in Hroom. lia.
    + exists reg. simpl. rewrite (Add_fresh s x Hxs Hlim). fold s1. rewrite HA.
      repeat split.
      * rewrite Hmap. simpl. set_solver.
      * done.
      * rewrite Hsize, Hsz. simpl. lia.
Qed.

(** Once distinct new states have filled the registry up to its maximum, one
    more is turned down and the registry stays as it is. *)
Lemma AddAll_then_full s (l : list State) state :
  0 < maxSize s → NoDup (l ++ [state]) →
  (∀ x, x ∈ l ++ [state] → x ∉ stateMap s) →
  Z.of_nat (size (stateMap s)) + Z.of_nat (length l) = maxSize s →
  ∃ reg, AddAll s l = (replicate (length l) None, reg)
         ∧ Add reg state = (Some (size_exceeded state), reg).
Proof.
  intros HN Hnd Hnew Hsz.
  apply NoDup_app in Hnd as (Hl & Hdisj & _).
  destruct (AddAll_fresh l s) as (reg & HA & Hmap & Hmax & Hsize).
  - done.
  - intros x Hx. apply Hnew. set_solver.
  - right. lia.
  - exists reg. split; [done|]. apply Add_full.
    + rewrite Hmap. intros Hin. apply elem_of_union in Hin as [Hin|Hin].
      * apply (Hdisj state); set_solver.
      * apply (Hnew state); set_solver.
    + apply limitReached_true. rewrite Hmax, Hsize. lia.
Qed.

(** [RegisterState] is [Add] on the machine's registry. *)
Lemma RegisterState_Add f s state :
  states f = Some s →
  RegisterState f state =
    Returns ((Add s state).1, set_states f (Some (Add s state).2)).
Proof.
  intros Hs. unfold RegisterState. rewrite Hs.
  by destruct (Add s state) as [[e|] s'].
Qed.

Lemma RegisterAll_AddAll (l : list State) : ∀ f s,
  states f = Some s →
  RegisterAll f l = Returns ((AddAll s l).1, set_states f (Some (AddAll s l).2)).
Proof.
  induction l as [|x l IH]; intros f s Hs.
  - simpl. destruct f; simpl in *. by subst.
  - simpl. rewrite (RegisterState_Add f s x Hs).
    destruct (Add s x) as [err s1]. simpl.
    rewrite (IH (set_states f (Some s1)) s1 eq_refl).
    by destruct (AddAll s1 l) as [errs s2].
Qed.

(** On the registry [NewStates] returns, neither branch of [Add] that fails
    can be taken. *)
Lemma Add_NewStates (n : Z) state :
  Add (NewStates n) state =
    (None, {| stateMap := {[state]} ∪ ∅; maxSize := n |}).
Proof.
  apply Add_fresh; [set_solver|].
  apply limitReached_false. cbn [NewStates stateMap maxSize]. rewrite size_empty. lia.
Qed.

Lemma New_unfold (initialState : State) (opts : list FSMOptionFunc) :
  let o := fold_left (λ o opt, opt o) opts (DefaultOptions os_Stdout) in
  New (Ctx:=Ctx) (Ptr:=Ptr) (World:=World) (ForeignErr:=ForeignErr)
      os_Stdout initialState opts =
    Returns
      {| options := o;
         logger := setLogger (UseStdOut o) (LogOutput o) (LogLevel o);
         states := Some {| stateMap := {[initialState]} ∪ ∅; maxSize := maxStates o |};
         currentState := initialState;
         transitions := mk_slice [];
         errorState := EmptyString;
         errorHandler := None |}.
Proof.
  intros o. unfold New. fold o.
  erewrite RegisterState_Add by reflexivity.
  by rewrite Add_NewStates.
Qed.

(** ** The claims about the registry and [New] *)

(** C7. [Add] of a state that is already a member fails with
    [ErrStateAlreadyExists] and leaves the registry as it was, whether or not
    the registry is full.  With a maximum [N > 0], distinct new states go in
    until the registry holds [N] of them, and [Add] of one more fails with
    [ErrStateSizeExceeded] and leaves the registry as it was: from the empty
    registry the first [N] distinct calls succeed and the next one fails.  On
    a machine built by [New] with [WithMaxStates N], the registration of the
    initial state is the first of these [N] calls.  With a maximum of 0 the
    limit is never reached.  In every other case [Add] inserts the state and
    returns nil. *)
Theorem Add_contract s state :
  (state ∈ stateMap s →
     Add s state =
       (Some (StateErrorRef state "Add" (Some ErrStateAlreadyExists)), s))
  ∧ (∀ l : list State,
       0 < maxSize s → NoDup (l ++ [state]) →
       (∀ x, x ∈ l ++ [state] → x ∉ stateMap s) →
       Z.of_nat (size (stateMap s)) + Z.of_nat (length l) = maxSize s →
       ∃ reg, AddAll s l = (replicate (length l) None, reg)
              ∧ Add reg state =
                  (Some (StateErrorRef state "Add" (Some ErrStateSizeExceeded)), reg))
  ∧ (∀ (N : Z) (l : list State),
       0 < N → length l = Z.to_nat N → NoDup (l ++ [state]) →
       ∃ reg, AddAll (NewStates N) l = (replicate (length l) None, reg)
              ∧ Add reg state =
                  (Some (StateErrorRef state "Add" (Some ErrStateSizeExceeded)), reg))
  ∧ (∀ (N : Z) (initialState : State) (l : list State),
       0 < N → S (length l) = Z.to_nat N → NoDup (initialState :: l ++ [state]) →
       ∃ f0 f1 : FSM,
         New os_Stdout initialState [WithMaxStates N] = Returns f0
         ∧ RegisterAll f0 l = Returns (replicate (length l) None, f1)
         ∧ RegisterState f1 state =
             Returns (Some (StateErrorRef state "Add" (Some ErrStateSizeExceeded)), f1))
  ∧ (maxSize s = 0 → limitReached s = false)
  ∧ (state ∉ stateMap s →
     ¬ (0 < maxSize s ∧ maxSize s <= Z.of_nat (size (stateMap s))) →
     Add s state =
       (None, {| stateMap := {[state]} ∪ stateMap s; maxSize := maxSize s |})).
Proof.
  split; [by apply Add_member|].
  split; [|split; [|split; [|split]]].
  - intros l HN Hnd Hnew Hsz. by apply AddAll_then_full.
  - intros N l HN Hlen Hnd. apply AddAll_then_full.
    + done.
    + done.
    + intros x _. cbn [NewStates stateMap]. set_solver.
    + cbn [NewStates stateMap maxSize]. rewrite size_empty. lia.
  - intros N s0 l HN Hlen Hnd.
    apply NoDup_cons in Hnd as [Hs0 Hnd].
    set (reg0 := {| stateMap := {[s0]} ∪ ∅; maxSize := N |}).
    assert (Hsz0 : size (stateMap reg0) = 1%nat).
    { unfold reg0. cbn [stateMap]. rewrite union_empty_r_L. apply size_singleton. }
    destruct (AddAll_then_full reg0 l state) as (reg & HA & Hfull).
    + done.
    + done.
    + intros x Hx. unfold reg0. cbn [stateMap]. set_solver.
    + rewrite Hsz0. unfold reg0. cbn [maxSize]. lia.
    + eexists _, _. split; [apply New_unfold|]. cbn [fold_left maxStates WithMaxStates].
      fold reg0. split.
      * erewrite RegisterAll_AddAll by reflexivity. rewrite HA. reflexivity.
      * erewrite RegisterState_Add by reflexivity. cbn [fst snd states].
        by rewrite Hfull.
  - intros H0. apply limitReached_false. lia.
  - intros Hnin Hroom. apply Add_fresh; [done|].
    apply limitReached_false. lia.
Qed.

(** C8. For every initial state and every list of options, [New] returns a
    machine: [Add] on the empty registry takes neither of its failing
    branches, whatever the maximum.  The machine's current state is the
    initial state, and that state is registered. *)
Theorem New_returns (initialState : State) (opts : list FSMOptionFunc) :
  ∃ f : FSM,
    New os_Stdout initialState opts = Returns f
    ∧ currentState f = initialState
    ∧ registered f initialState
    ∧ ∀ n : Z, Exists (NewStates n) initialState = false
               ∧ limitReached (NewStates n) = false.
Proof.
  eexists. split; [apply New_unfold|]. simpl. split; [done|]. split.
  - eexists. split; [done|]. simpl. set_solver.
  - intros n. split.
    + apply Exists_false. simpl. set_solver.
    + apply limitReached_false. cbn [NewStates stateMap maxSize].
      rewrite size_empty. lia.
Qed.

(** ** The lookup *)

Lemma Trigger_lookup_matching (ts : list Transition) (cur : State) (event : Event) :
  Trigger_lookup ts cur event =
    match matching ts cur event with
    | [] => (EmptyString, nil_slice, false)
    | t :: _ => (To t, Actions t, true)
    end.
Proof.
  unfold matching. induction ts as [|t ts IH]; [done|].
  simpl Trigger_lookup. rewrite filter_cons.
  destruct (decide (From t = cur ∧ Event_ t = event)) as [Hm|Hm];
    destruct (decide (matches cur event t)) as [Hm'|Hm']; try done.

Qed.

(** The first match is preceded by transitions that do not match. *)
Lemma matching_first (ts : list Transition) cur event t rest :
  matching ts cur event = t :: rest →
  ∃ pre post, ts = pre ++ t :: post ∧ Forall (λ u, ¬ matches cur event u) pre
              ∧ matches cur event t.
Proof.
  unfold matching. induction ts as [|u ts IH]; [done|].
  rewrite filter_cons. destruct (decide (matches cur event u)) as [Hm|Hm].
  - intros [= -> _]. exists [], ts. split; [done|]. split; [constructor | done].
  - intros Hf. destruct (IH Hf) as (pre & post & -> & Hpre & Ht).
    exists (u :: pre), post. split; [done|]. split; [by constructor | done].
Qed.

Lemma matching_app_first (pre post : list Transition) cur event t :
  Forall (λ u, ¬ matches cur event u) pre → matches cur event t →
  matching (pre ++ t :: post) cur event = t :: matching post cur event.
Proof.
  intros Hpre Ht. unfold matching. induction Hpre as [|u pre Hu _ IH]; simpl.
  - rewrite filter_cons. by destruct (decide (matches cur event t)).
  - rewrite filter_cons. by destruct (decide (matches cur event u)).
Qed.

(** ** The action chain *)

Lemma chain_fold_cons ctx (fn : ActionFunc) fns args w :
  chain_fold ctx (fn :: fns) args w =
    chain_fold ctx fns (chain_step ctx (args, w) fn).1 (chain_step ctx (args, w) fn).2.
Proof. reflexivity. Qed.

(** The fallback as the code writes it at its three places. *)
Lemma fallback_failed_call f ctx args (e : error) w :
  (let '(f1, w1) :=
     if fallbackConfigured f then handleError f ctx args (Some e) w else (f, w) in
   {| ret_args := args; ret_err := Some e; machine := f1; world := w1 |})
  = failed_call f ctx args e w.
Proof.
  unfold fallbackConfigured, handleError, failed_call.
  destruct (errorHandler f) as [h|].
  - destruct (h ctx args w) as [[a' e'] w']. simpl.
    destruct (decide (errorState f ≠ EmptyString)), (decide (errorState f = EmptyString));
      done.
  - destruct (decide (errorState f ≠ EmptyString)) as [Hne|He].
    + rewrite bool_decide_eq_true_2 by done.
      destruct (decide (errorState f ≠ EmptyString)); [|done]. by rewrite decide_False.
    + rewrite bool_decide_eq_false_2 by done. rewrite decide_True; [done|].
      by destruct (decide (errorState f = EmptyString)).
Qed.

Lemma Trigger_run_nil f ctx event nextState args w :
  Trigger_run f ctx event nextState [] args w =
    {| ret_args := args; ret_err := None;
       machine := set_currentState f nextState; world := w |}.
Proof. done. Qed.

Lemma Trigger_run_unbound f ctx event nextState (a : Action) post args w :
  Fn a = None →
  Trigger_run f ctx event nextState (a :: post) args w =
    failed_call f ctx args (no_handler_defined (currentState f) event) w.
Proof.
  intros Ha. simpl. rewrite Ha. apply fallback_failed_call.
Qed.

Lemma Trigger_run_error f ctx event nextState (a : Action) post args w fn e :
  Fn a = Some fn → (fn ctx args w).1.2 = Some e →
  Trigger_run f ctx event nextState (a :: post) args w =
    failed_call f ctx (fn ctx args w).1.1 e (fn ctx args w).2.
Proof.
  intros Ha He. simpl. rewrite Ha.
  destruct (fn ctx args w) as [[a' e'] w']. simpl in *. subst e'.
  apply fallback_failed_call.
Qed.

Lemma Trigger_run_step f ctx event nextState (a : Action) post args w fn :
  Fn a = Some fn → (fn ctx args w).1.2 = None →
  Trigger_run f ctx event nextState (a :: post) args w =
    Trigger_run f ctx event nextState post
      (chain_step ctx (args, w) fn).1 (chain_step ctx (args, w) fn).2.
Proof.
  intros Ha He. simpl. rewrite Ha. unfold chain_step. simpl.
  destruct (fn ctx args w) as [[a' e'] w']. simpl in *. by subst e'.
Qed.

(** A prefix of actions that all return nil is a fold. *)
Lemma Trigger_run_prefix f ctx event nextState (pre : list Action) : ∀ fns post args w,
  bound_to pre fns → chain_all_nil ctx fns args w →
  Trigger_run f ctx event nextState (pre ++ post) args w =
    Trigger_run f ctx event nextState post
      (chain_fold ctx fns args w).1 (chain_fold ctx fns args w).2.
Proof.
  induction pre as [|a pre IH]; intros fns post args w Hb Hnil.
  - destruct fns; [done | discriminate Hb].
  - destruct fns as [|fn fns]; [discriminate Hb|].
    injection Hb as Ha Hb. destruct Hnil as [He Hnil].
    rewrite chain_fold_cons. simpl app.
    rewrite (Trigger_run_step _ _ _ _ _ _ _ _ fn Ha He).
    by apply IH.
Qed.

(** Every chain either runs through, or has a first action that is not bound
    or returns an error. *)
Lemma chain_split ctx (hs : list Action) : ∀ args w,
  (∃ fns, bound_to hs fns ∧ chain_all_nil ctx fns args w)
  ∨ (∃ pre a post fns, hs = pre ++ a :: post ∧ bound_to pre fns
       ∧ chain_all_nil ctx fns args w
       ∧ (Fn a = None
          ∨ ∃ fn e, Fn a = Some fn
              ∧ (fn ctx (chain_fold ctx fns args w).1 (chain_fold ctx fns args w).2).1.2
                = Some e)).
Proof.
  induction hs as [|a hs IH]; intros args w.
  - left. by exists [].
  - destruct (Fn a) as [fn|] eqn:Ha.
    + destruct ((fn ctx args w).1.2) as [e|] eqn:He.
      * right. exists [], a, hs, []. do 3 (split; [done|]). right. by exists fn, e.
      * destruct (IH (chain_step ctx (args, w) fn).1 (chain_step ctx (args, w) fn).2)
          as [(fns & Hb & Hnil) | (pre & b & post & fns & -> & Hb & Hnil & Hfail)].
        -- left. exists (fn :: fns). split; [|done].
           unfold bound_to in *. simpl. by rewrite Ha, Hb.
        -- right. exists (a :: pre), b, post, (fn :: fns).
           split; [done|]. split; [unfold bound_to in *; simpl; by rewrite Ha, Hb|].
           split; [done|]. by rewrite chain_fold_cons.
    + right. exists [], a, hs, []. do 3 (split; [done|]). by left.
Qed.

(** ** [Trigger] as lookup, chain and fallback *)

Lemma Trigger_no_match f ctx event args w :
  matching (elems (transitions f)) (currentState f) event = [] →
  Trigger f ctx event args w =
    failed_call f ctx args (no_transition_found (currentState f) event) w.
Proof.
  intros Hm. unfold Trigger. rewrite Trigger_lookup_matching, Hm. simpl negb.
  cbv iota. apply fallback_failed_call.
Qed.

Lemma Trigger_match f ctx event args w t rest :
  matching (elems (transitions f)) (currentState f) event = t :: rest →
  Trigger f ctx event args w =
    Trigger_run f ctx event (To t) (elems (Actions t)) args w.
Proof.
  intros Hm. unfold Trigger. by rewrite Trigger_lookup_matching, Hm.
Qed.

Lemma Trigger_run_through f ctx event nextState hs fns args w :
  bound_to hs fns → chain_all_nil ctx fns args w →
  Trigger_run f ctx event nextState hs args w =
    committed_call f nextState (chain_fold ctx fns args w).1 (chain_fold ctx fns args w).2.
Proof.
  intros Hb Hnil. rewrite <- (app_nil_r hs).
  by rewrite (Trigger_run_prefix _ _ _ _ _ fns [] _ _ Hb Hnil).
Qed.

(** For a given current state, event, payload and world, either every
    machine runs the chain through, or every machine fails at one and the
    same point; the fallback configuration decides nothing but what happens
    after that point. *)
Lemma Trigger_run_cases f ctx event nextState hs args w :
  (∃ fns, bound_to hs fns ∧ chain_all_nil ctx fns args w
      ∧ ∀ g, currentState g = currentState f →
          Trigger_run g ctx event nextState hs args w =
            committed_call g nextState
              (chain_fold ctx fns args w).1 (chain_fold ctx fns args w).2)
  ∨ (∃ a e w',
      ∀ g, currentState g = currentState f →
        Trigger_run g ctx event nextState hs args w = failed_call g ctx a e w').
Proof.
  destruct (chain_split ctx hs args w)
    as [(fns & Hb & Hnil) | (pre & a & post & fns & Hhs & Hb & Hnil & Hfail)].
  - left. exists fns. do 2 (split; [done|]). intros g _.
    by apply Trigger_run_through.
  - right. destruct Hfail as [Ha | (fn & e & Ha & He)].
    + exists (chain_fold ctx fns args w).1, (no_handler_defined (currentState f) event),
        (chain_fold ctx fns args w).2.
      intros g Hc.
      rewrite Hhs, (Trigger_run_prefix _ _ _ _ _ fns _ _ _ Hb Hnil), <- Hc.
      by apply Trigger_run_unbound.
    + eexists _, e, _. intros g Hc.
      rewrite Hhs, (Trigger_run_prefix _ _ _ _ _ fns _ _ _ Hb Hnil).
      by apply (Trigger_run_error _ _ _ _ _ _ _ _ fn e).
Qed.

Lemma Trigger_cases f ctx event args w :
  (∃ t rest fns,
      matching (elems (transitions f)) (currentState f) event = t :: rest
      ∧ bound_to (elems (Actions t)) fns ∧ chain_all_nil ctx fns args w
      ∧ ∀ g, transitions g = transitions f → currentState g = currentState f →
          Trigger g ctx event args w =
            committed_call g (To t)
              (chain_fold ctx fns args w).1 (chain_fold ctx fns args w).2)
  ∨ (∃ a e w',
      ∀ g, transitions g = transitions f → currentState g = currentState f →
        Trigger g ctx event args w = failed_call g ctx a e w').
Proof.
  destruct (matching (elems (transitions f)) (currentState f) event) as [|t rest] eqn:Hm.
  - right. exists args, (no_transition_found (currentState f) event), w.
    intros g Ht Hc. rewrite <- Hc. apply Trigger_no_match. by rewrite Ht, Hc.
  - destruct (Trigger_run_cases f ctx event (To t) (elems (Actions t)) args w)
      as [(fns & Hb & Hnil & Hrun) | (a & e & w' & Hrun)].
    + left. exists t, rest, fns. do 3 (split; [done|]). intros g Ht Hc.
      rewrite (Trigger_match g ctx event args w t rest) by (by rewrite Ht, Hc).
      by apply Hrun.
    + right. exists a, e, w'. intros g Ht Hc.
      rewrite (Trigger_match g ctx event args w t rest) by (by rewrite Ht, Hc).
      by apply Hrun.
Qed.

(** The case split of [Trigger_cases], with its names. *)
Ltac trigger_cases f ctx event args w :=
  destruct (Trigger_cases f ctx event args w)
    as [(t & later & fns & Hm & Hb & Hnil & Hg) | (a & e & w' & Hg)].

Lemma failed_call_state f ctx args (e : error) w :
  currentState (machine (failed_call f ctx args e w)) =
    if decide (errorState f = EmptyString) then currentState f else errorState f.
Proof. unfold failed_call. simpl. by destruct (decide (errorState f = EmptyString)). Qed.

Lemma matching_nil (ts : list Transition) cur event :
  Forall (λ t, ¬ matches cur event t) ts → matching ts cur event = [].
Proof.
  unfold matching. induction 1 as [|t ts Ht _ IH]; [done|].
  rewrite filter_cons. by destruct (decide (matches cur event t)).
Qed.

Lemma matching_head_matches (ts : list Transition) cur event t rest :
  matching ts cur event = t :: rest → matches cur event t.
Proof.
  intros Hm. destruct (matching_first ts cur event t rest Hm) as (? & ? & _ & _ & Ht).
  exact Ht.
Qed.

(** [AddTransition] puts the new transition after all the others, so the
    matches of a table are listed in the order they were added. *)
Lemma AddTransition_appends f from to event (actions : slice Action) f' :
  AddTransition f from to event actions = Returns f' →
  elems (transitions f') =
    elems (transitions f)
      ++ [{| From := from; To := to; Event_ := event; Actions := actions |}]
  ∧ currentState f' = currentState f.
Proof.
  unfold AddTransition. destruct (transitions f) as [|ts] eqn:Hts; [done|].
  by intros [= <-].
Qed.

Lemma AddTransition_matching f from to event (actions : slice Action) f' cur ev :
  AddTransition f from to event actions = Returns f' →
  matching (elems (transitions f')) cur ev =
    matching (elems (transitions f)) cur ev
      ++ (if decide (from = cur ∧ event = ev)
          then [{| From := from; To := to; Event_ := event; Actions := actions |}]
          else []).
Proof.
  intros Hadd. apply AddTransition_appends in Hadd as [-> _].
  unfold matching. rewrite filter_app, filter_cons, filter_nil.
  destruct (decide (from = cur ∧ event = ev)) as [Hm|Hm];
    destruct (decide (matches cur ev _)) as [Hm'|Hm']; done.
Qed.

(** [Trigger] assigns to nothing but the current state. *)
Lemma Trigger_frame f ctx event args w :
  ∃ st, machine (Trigger f ctx event args w) = set_currentState f st.
Proof.
  trigger_cases f ctx event args w;
    rewrite (Hg f eq_refl eq_refl).
  - by exists (To t).
  - unfold failed_call. simpl. destruct (decide (errorState f = EmptyString)).
    + exists (currentState f). by destruct f.
    + by exists (errorState f).
Qed.

(** ** The claims about [Trigger] *)

(** C1. After [Trigger], the current state is the matched transition's [To]
    when a transition matched and every action of its chain returned a nil
    error, and only then is the returned error nil; it is the error state
    when the call failed and that state is configured (is not the empty
    string); it is the state held before the call when the call failed and no
    error state is configured.  In particular an action that fails in the
    middle of a chain leaves the current state as it was when no error state
    is configured. *)
Theorem Trigger_final_state f ctx event args w :
  let r := Trigger f ctx event args w in
  (∀ t later fns,
      matching (elems (transitions f)) (currentState f) event = t :: later →
      bound_to (elems (Actions t)) fns → chain_all_nil ctx fns args w →
      ret_err r = None ∧ currentState (machine r) = To t)
  ∧ (ret_err r = None →
      ∃ t later fns,
        matching (elems (transitions f)) (currentState f) event = t :: later
        ∧ bound_to (elems (Actions t)) fns ∧ chain_all_nil ctx fns args w
        ∧ currentState (machine r) = To t)
  ∧ (ret_err r ≠ None → errorState f ≠ EmptyString →
      currentState (machine r) = errorState f)
  ∧ (ret_err r ≠ None → errorState f = EmptyString →
      currentState (machine r) = currentState f)
  ∧ (∀ t later pre a post fns,
      matching (elems (transitions f)) (currentState f) event = t :: later →
      elems (Actions t) = pre ++ a :: post →
      bound_to pre fns → chain_all_nil ctx fns args w →
      (Fn a = None
       ∨ ∃ fn e, Fn a = Some fn
           ∧ (fn ctx (chain_fold ctx fns args w).1 (chain_fold ctx fns args w).2).1.2
             = Some e) →
      ret_err r ≠ None
      ∧ (errorState f = EmptyString → currentState (machine r) = currentState f)).
Proof.
  intros r. subst r.
  split; [|split; [|split; [|split]]].
  - intros t later fns Hm Hb Hnil.
    rewrite (Trigger_match f ctx event args w t later Hm).
    by rewrite (Trigger_run_through f ctx event (To t) _ fns args w Hb Hnil).
  - trigger_cases f ctx event args w;
      rewrite (Hg f eq_refl eq_refl); [|done].
    intros _. by exists t, later, fns.
  - trigger_cases f ctx event args w;
      rewrite (Hg f eq_refl eq_refl); [done|].
    intros _ Hes. rewrite failed_call_state. by rewrite decide_False.
  - trigger_cases f ctx event args w;
      rewrite (Hg f eq_refl eq_refl); [done|].
    intros _ Hes. rewrite failed_call_state. by rewrite decide_True.
  - intros t later pre a post fns Hm Hhs Hb Hnil Hfail.
    rewrite (Trigger_match f ctx event args w t later Hm), Hhs.
    rewrite (Trigger_run_prefix _ _ _ _ _ fns _ _ _ Hb Hnil).
    destruct Hfail as [Ha | (fn & e & Ha & He)].
    + rewrite (Trigger_run_unbound _ _ _ _ _ _ _ _ Ha). split; [done|].
      intros Hes. rewrite failed_call_state. by rewrite decide_True.
    + rewrite (Trigger_run_error _ _ _ _ _ _ _ _ fn e Ha He). split; [done|].
      intros Hes. rewrite failed_call_state. by rewrite decide_True.
Qed.

(** C2. When a [Trigger] call fails, with [e] the error it returns: [e] is
    the error the same call returns on the machine without any fallback, and
    so is the payload, whatever the handler returned; the handler, when there
    is one, has been run on that payload in the world the failure left; and
    when the error state is configured the machine is in it. *)
Theorem Trigger_fallback f ctx event args w e :
  ret_err (Trigger f ctx event args w) = Some e →
  let r := Trigger f ctx event args w in
  let r0 := Trigger (without_fallback f) ctx event args w in
  ret_err r0 = Some e
  ∧ ret_args r = ret_args r0
  ∧ world r = match errorHandler f with
              | Some h => (h ctx (ret_args r0) (world r0)).2
              | None => world r0
              end
  ∧ (errorState f ≠ EmptyString → currentState (machine r) = errorState f).
Proof.
  intros He r r0. subst r r0. revert He.
  destruct (Trigger_cases f ctx event args w)
    as [(t & later & fns & Hm & Hb & Hnil & Hg) | (a & e' & w' & Hg)].
  - by rewrite (Hg f eq_refl eq_refl).
  - rewrite (Hg f eq_refl eq_refl), (Hg (without_fallback f) eq_refl eq_refl).
    simpl. intros [= ->]. do 3 (split; [done|]).
    intros Hes. by rewrite decide_False.
Qed.

(** C3. When two or more transitions match the current state and the event,
    [t1] being the one added first, [Trigger] does what it does on the table
    that holds [t1] alone: it runs the chain of [t1], and a call that
    succeeds leaves the machine in the [To] of [t1], not in that of a match
    added later. *)
Theorem Trigger_first_match f ctx event args w t1 t2 more :
  matching (elems (transitions f)) (currentState f) event = t1 :: t2 :: more →
  let r := Trigger f ctx event args w in
  let r1 := Trigger (set_transitions f (mk_slice [t1])) ctx event args w in
  r = Trigger_run f ctx event (To t1) (elems (Actions t1)) args w
  ∧ ret_args r = ret_args r1 ∧ ret_err r = ret_err r1 ∧ world r = world r1
  ∧ currentState (machine r) = currentState (machine r1)
  ∧ (ret_err r = None → currentState (machine r) = To t1)
  ∧ (ret_err r = None → ∀ t, t ∈ t2 :: more → To t ≠ To t1 →
       currentState (machine r) ≠ To t).
Proof.
  intros Hm r r1. subst r r1.
  assert (Ht1 : matches (currentState f) event t1) by (by eapply matching_head_matches).
  assert (Hm1 : matching (elems (transitions (set_transitions f (mk_slice [t1]))))
                  (currentState (set_transitions f (mk_slice [t1]))) event = [t1]).
  { simpl. unfold matching. rewrite filter_cons. by rewrite decide_True. }
  rewrite (Trigger_match f ctx event args w t1 _ Hm).
  rewrite (Trigger_match _ ctx event args w t1 _ Hm1).
  split; [done|].
  destruct (Trigger_run_cases f ctx event (To t1) (elems (Actions t1)) args w)
    as [(fns & Hb & Hnil & Hrun) | (a & e & w' & Hrun)];
    rewrite (Hrun f eq_refl), (Hrun (set_transitions f (mk_slice [t1])) eq_refl).
  - simpl. do 5 (split; [done|]). intros _ t _ Hne. congruence.
  - simpl. do 3 (split; [done|]).
    split; [by destruct (decide (errorState f = EmptyString))|].
    split; intros [=].
Qed.

(** C4. For the matched transition [t], when every action of the chain is
    bound and returns a nil error, [Trigger] returns the left fold of the
    action functions over the payload, each function applied to what the one
    before it returned, with a nil error, and commits [To t].  When the chain
    is the nil or the empty slice, no action runs: the payload and the world
    are those of the call. *)
Theorem Trigger_chain_fold f ctx event args w t later :
  matching (elems (transitions f)) (currentState f) event = t :: later →
  (∀ fns, bound_to (elems (Actions t)) fns → chain_all_nil ctx fns args w →
     Trigger f ctx event args w =
       {| ret_args := (fold_left (chain_step ctx) fns (args, w)).1;
          ret_err := None;
          machine := set_currentState f (To t);
          world := (fold_left (chain_step ctx) fns (args, w)).2 |})
  ∧ (Actions t = nil_slice ∨ Actions t = mk_slice [] →
     Trigger f ctx event args w =
       {| ret_args := args; ret_err := None;
          machine := set_currentState f (To t); world := w |}).
Proof.
  intros Hm. rewrite (Trigger_match f ctx event args w t later Hm). split.
  - intros fns Hb Hnil.
    by rewrite (Trigger_run_through f ctx event (To t) _ fns args w Hb Hnil).
  - by intros [-> | ->].
Qed.

(** C5. For the matched transition [t], when the actions before [a] all
    return a nil error and [a], run on the payload they produced, returns the
    error [e]: [Trigger] returns [e] itself and the payload [a] returned; the
    world is the one [a] left, after the error handler if there is one, so
    none of the actions after [a] has run. *)
Theorem Trigger_action_error f ctx event args w t later pre a post fns fn e :
  matching (elems (transitions f)) (currentState f) event = t :: later →
  elems (Actions t) = pre ++ a :: post →
  bound_to pre fns → chain_all_nil ctx fns args w →
  Fn a = Some fn →
  let at_a := fold_left (chain_step ctx) fns (args, w) in
  (fn ctx at_a.1 at_a.2).1.2 = Some e →
  let r := Trigger f ctx event args w in
  ret_err r = Some e
  ∧ ret_args r = (fn ctx at_a.1 at_a.2).1.1
  ∧ world r = match errorHandler f with
              | Some h => (h ctx (fn ctx at_a.1 at_a.2).1.1 (fn ctx at_a.1 at_a.2).2).2
              | None => (fn ctx at_a.1 at_a.2).2
              end.
Proof.
  intros Hm Hhs Hb Hnil Ha at_a He r. subst r at_a.
  rewrite (Trigger_match f ctx event args w t later Hm), Hhs.
  rewrite (Trigger_run_prefix _ _ _ _ _ fns _ _ _ Hb Hnil).
  by rewrite (Trigger_run_error _ _ _ _ _ _ _ _ fn e Ha He).
Qed.

(** C6. When no transition of the table matches the current state and the
    event, [Trigger] returns the [TransitionError] with message
    [no transition found], the current state, the event and a nil cause, and
    the payload it was given; with neither an error handler nor an error
    state, the machine and the world are left as they were. *)
Theorem Trigger_no_transition f ctx event args w :
  Forall (λ t, ¬ (From t = currentState f ∧ Event_ t = event))
         (elems (transitions f)) →
  let r := Trigger f ctx event args w in
  ret_err r = Some (TransitionErrorRef "no transition found" (currentState f) event None)
  ∧ ret_args r = args
  ∧ (errorHandler f = None → errorState f = EmptyString →
     machine r = f ∧ world r = w).
Proof.
  intros Hno r. subst r.
  rewrite (Trigger_no_match f ctx event args w) by (by apply matching_nil).
  do 2 (split; [done|]). intros Hh Hes. unfold failed_call. simpl.
  rewrite Hh. by rewrite decide_True.
Qed.

(** C9. With the empty string given to [SetErrorHandler] as the error state,
    a failing [Trigger] still runs the handler, when there is one, on the
    payload and in the world of the failure, and leaves the current state as
    it was.  And whatever error state is given, a failing [Trigger] that
    leaves the machine in the state named by the empty string found it
    there. *)
Theorem SetErrorHandler_empty_state f (h : option ActionFunc) ctx event args w :
  (let r := Trigger (SetErrorHandler f EmptyString h) ctx event args w in
   let r0 := Trigger (without_fallback f) ctx event args w in
   ret_err r ≠ None →
   currentState (machine r) = currentState f
   ∧ ret_err r = ret_err r0 ∧ ret_args r = ret_args r0
   ∧ world r = match h with
               | Some hf => (hf ctx (ret_args r0) (world r0)).2
               | None => world r0
               end)
  ∧ (∀ es, let r := Trigger (SetErrorHandler f es h) ctx event args w in
     ret_err r ≠ None → currentState (machine r) = EmptyString →
     currentState f = EmptyString).
Proof.
  split.
  - intros r r0. subst r r0.
    trigger_cases f ctx event args w.
    + by rewrite (Hg (SetErrorHandler f EmptyString h) eq_refl eq_refl).
    + rewrite (Hg (SetErrorHandler f EmptyString h) eq_refl eq_refl).
      rewrite (Hg (without_fallback f) eq_refl eq_refl). simpl. intros _.
      by destruct h.
  - intros es r. subst r.
    trigger_cases f ctx event args w.
    + by rewrite (Hg (SetErrorHandler f es h) eq_refl eq_refl).
    + rewrite (Hg (SetErrorHandler f es h) eq_refl eq_refl). intros _.
      rewrite failed_call_state. simpl.
      destruct (decide (es = EmptyString)); [done|]. intros ->. done.
Qed.

End Properties.

(** * The properties on the sample machines *)

Import Demo.

(** The scenario of the specification: idle, start, complete, and start
    again from done. *)
Example lifecycle_start :
  let r := Trigger lifecycle tt "start" (Some 0%nat) ["x"] in
  ret_args r = Some 0%nat ∧ ret_err r = None ∧ world r = ["processed: x"]
  ∧ GetState (machine r) = "processing".
Proof. vm_compute. done. Qed.

Example lifecycle_complete :
  let r1 := Trigger lifecycle tt "start" (Some 0%nat) ["x"] in
  let r2 := Trigger (machine r1) tt "complete" (ret_args r1) (world r1) in
  ret_err r2 = None ∧ world r2 = ["processed: x"] ∧ GetState (machine r2) = "done".
Proof. vm_compute. done. Qed.

Example lifecycle_start_again :
  let r1 := Trigger lifecycle tt "start" (Some 0%nat) ["x"] in
  let r2 := Trigger (machine r1) tt "complete" (ret_args r1) (world r1) in
  let r3 := Trigger (machine r2) tt "start" (ret_args r2) (world r2) in
  ret_err r3 = Some (TransitionErrorRef "no transition found" "done" "start" None)
  ∧ GetState (machine r3) = "done".
Proof. vm_compute. done. Qed.

(** The initial state takes one of the places [WithMaxStates] allows. *)
Example New_then_full :
  and_then (New (Ctx:=unit) (Ptr:=option nat) (World:=list string) stdout "a"
              [WithLogConsole; WithMaxStates 1; WithLogLevel 0])
    (fun m => and_then (RegisterState m "b") (fun r => Returns r.1))
  = Returns (Some (StateErrorRef "b" "Add" (Some ErrStateSizeExceeded))).
Proof. vm_compute. done. Qed.

(** A machine that was not built by [New] panics on its nil fields. *)
Example zero_panics :
  RegisterState zero "a" = Panics PanicStatesNil
  ∧ AddTransition zero "a" "b" "x" nil_slice = Panics PanicTransitionsNil.
Proof. done. Qed.

(** An action without a function stops the chain where it stands. *)
Example unbound_action :
  let m := built (and_then (New stdout "a" [])
             (fun m => AddTransition m "a" "b" "go"
                (mk_slice [act "one" (suffix "_1"); unbound "two";
                           act "three" (suffix "_3")]))) in
  let r := Trigger (m : Machine) tt "go" (Some 0%nat) ["x"] in
  ret_err r = Some (TransitionErrorRef "no handler function defined" "a" "go" None)
  ∧ ret_args r = Some 0%nat ∧ world r = ["x_1"] ∧ GetState (machine r) = "a".
Proof. vm_compute. done. Qed.

Lemma Trigger_final_state_witness :
  currentState (machine (Trigger breaking tt "go" (Some 0%nat) ["x"])) = "a"
  ∧ currentState (machine (Trigger guarded tt "go" (Some 0%nat) ["x"])) = "error_state"
  ∧ currentState (machine (Trigger chained tt "go" (Some 0%nat) ["x"])) = "b".
Proof.
  split; [|split].
  - destruct (Trigger_final_state breaking tt "go" (Some 0%nat) ["x"])
      as (_ & _ & _ & _ & H).
    apply (H t_break [] [act "one" (suffix "_1")] (act "two" (failing "action failed"))
             [act "three" (suffix "_3")] [suffix "_1"]).
    + reflexivity.
    + reflexivity.
    + reflexivity.
    + simpl. split; reflexivity.
    + right. exists (failing "action failed"), (Foreign "action failed").
      split; reflexivity.
    + reflexivity.
  - destruct (Trigger_final_state guarded tt "go" (Some 0%nat) ["x"])
      as (_ & _ & H & _).
    apply H; [vm_compute; discriminate | vm_compute; discriminate].
  - destruct (Trigger_final_state chained tt "go" (Some 0%nat) ["x"])
      as (H & _).
    apply (H t_chain [] [suffix "_1"; suffix "_2"; suffix "_3"]).
    + reflexivity.
    + reflexivity.
    + simpl. repeat split; reflexivity.
Defined.

Lemma Trigger_fallback_witness :
  let r := Trigger guarded tt "go" (Some 0%nat) ["x"] in
  ret_err r = Some (Foreign "action failed")
  ∧ ret_args r = None
  ∧ world r = ["x_1_failed"; "error_handled"]
  ∧ currentState (machine r) = "error_state".
Proof.
  intros r. subst r.
  destruct (Trigger_fallback guarded tt "go" (Some 0%nat) ["x"]
              (Foreign "action failed") eq_refl) as (_ & H2 & H3 & H4).
  split; [reflexivity|].
  split; [rewrite H2; reflexivity|].
  split; [rewrite H3; reflexivity|].
  apply H4. discriminate.
Defined.

Lemma Trigger_first_match_witness :
  matching (elems (transitions ambiguous)) (currentState ambiguous) "x" = [t_ab; t_ac]
  ∧ currentState (machine (Trigger ambiguous tt "x" (Some 0%nat) ["v"])) = "b"
  ∧ world (Trigger ambiguous tt "x" (Some 0%nat) ["v"]) = ["v_1"].
Proof.
  split; [reflexivity|].
  destruct (Trigger_first_match ambiguous tt "x" (Some 0%nat) ["v"] t_ab t_ac []
              eq_refl) as (_ & _ & _ & H3 & _ & H5 & _).
  split; [apply H5; reflexivity | rewrite H3; reflexivity].
Defined.

Lemma Trigger_chain_fold_witness :
  Trigger chained tt "go" (Some 0%nat) ["x"] =
    {| ret_args := Some 0%nat; ret_err := None;
       machine := set_currentState chained "b"; world := ["x_1_2_3"] |}
  ∧ Trigger (SetState lifecycle "processing") tt "complete" (Some 0%nat) ["x"] =
    {| ret_args := Some 0%nat; ret_err := None;
       machine := set_currentState (SetState lifecycle "processing") "done";
       world := ["x"] |}.
Proof.
  split.
  - destruct (Trigger_chain_fold chained tt "go" (Some 0%nat) ["x"] t_chain []
                eq_refl) as (H & _).
    rewrite (H [suffix "_1"; suffix "_2"; suffix "_3"]).
    + reflexivity.
    + reflexivity.
    + simpl. repeat split; reflexivity.
  - destruct (Trigger_chain_fold (SetState lifecycle "processing") tt "complete"
                (Some 0%nat) ["x"]
                {| From := "processing"; To := "done"; Event_ := "complete";
                   Actions := nil_slice |} [] eq_refl) as (_ & H).
    apply H. left. reflexivity.
Defined.

Lemma Trigger_action_error_witness :
  let r := Trigger breaking tt "go" (Some 0%nat) ["x"] in
  ret_err r = Some (Foreign "action failed")
  ∧ ret_args r = None
  ∧ world r = ["x_1_failed"].
Proof.
  apply (Trigger_action_error breaking tt "go" (Some 0%nat) ["x"] t_break []
           [act "one" (suffix "_1")] (act "two" (failing "action failed"))
           [act "three" (suffix "_3")] [suffix "_1"] (failing "action failed")
           (Foreign "action failed")).
  - reflexivity.
  - reflexivity.
  - reflexivity.
  - simpl. split; reflexivity.
  - reflexivity.
  - reflexivity.
Defined.

Lemma Trigger_no_transition_witness :
  let f := SetState lifecycle "done" in
  let r := Trigger f tt "start" (Some 0%nat) ["x"] in
  ret_err r = Some (TransitionErrorRef "no transition found" "done" "start" None)
  ∧ ret_args r = Some 0%nat
  ∧ machine r = f ∧ world r = ["x"].
Proof.
  intros f r. subst r.
  destruct (Trigger_no_transition f tt "start" (Some 0%nat) ["x"]) as (H1 & H2 & H3).
  - repeat constructor; intros [HF HE]; discriminate HF.
  - split; [exact H1|]. split; [exact H2|]. apply H3; reflexivity.
Defined.

Lemma SetErrorHandler_empty_state_witness :
  let r := Trigger (SetErrorHandler breaking EmptyString (Some quiet_handler))
             tt "go" (Some 0%nat) ["x"] in
  currentState (machine r) = "a"
  ∧ ret_err r = Some (Foreign "action failed")
  ∧ world r = ["x_1_failed"; "error_handled"].
Proof.
  intros r. subst r.
  destruct (SetErrorHandler_empty_state breaking (Some quiet_handler) tt "go"
              (Some 0%nat) ["x"]) as (H & _).
  destruct H as (H1 & H2 & _ & H4); [discriminate|].
  split; [rewrite H1; reflexivity|].
  split; [rewrite H2; reflexivity|].
  rewrite H4. reflexivity.
Defined.

Lemma Add_contract_witness :
  Add (ForeignErr:=string) {| stateMap := {["a"]}; maxSize := 1 |} "a" =
    (Some (StateErrorRef "a" "Add" (Some ErrStateAlreadyExists)),
     {| stateMap := {["a"]}; maxSize := 1 |})
  ∧ (∃ reg, AddAll (ForeignErr:=string) {| stateMap := {["a"]}; maxSize := 2 |} ["b"]
              = ([None], reg)
            ∧ Add (ForeignErr:=string) reg "c" =
                (Some (StateErrorRef "c" "Add" (Some ErrStateSizeExceeded)), reg))
  ∧ (∃ reg, AddAll (ForeignErr:=string) (NewStates 2) ["a"; "b"] = ([None; None], reg)
            ∧ Add (ForeignErr:=string) reg "c" =
                (Some (StateErrorRef "c" "Add" (Some ErrStateSizeExceeded)), reg))
  ∧ (∃ f0 f1 : Machine,
       New stdout "a" [WithMaxStates 2] = Returns f0
       ∧ RegisterAll f0 ["b"] = Returns ([None], f1)
       ∧ RegisterState f1 "c" =
           Returns (Some (StateErrorRef "c" "Add" (Some ErrStateSizeExceeded)), f1))
  ∧ limitReached {| stateMap := {["a"; "b"; "c"]}; maxSize := 0 |} = false
  ∧ Add (ForeignErr:=string) {| stateMap := {["a"]}; maxSize := 2 |} "b" =
      (None, {| stateMap := {["b"]} ∪ {["a"]}; maxSize := 2 |}).
Proof.
  destruct (Add_contract (Ctx:=unit) (Ptr:=option nat) (World:=list string)
              (ForeignErr:=string) stdout
              {| stateMap := {["a"]}; maxSize := 1 |} "a") as (H1 & _).
  destruct (Add_contract (Ctx:=unit) (Ptr:=option nat) (World:=list string)
              (ForeignErr:=string) stdout
              {| stateMap := {["a"]}; maxSize := 2 |} "c") as (_ & H2 & H3 & H4 & _).
  destruct (Add_contract (Ctx:=unit) (Ptr:=option nat) (World:=list string)
              (ForeignErr:=string) stdout
              {| stateMap := {["a"; "b"; "c"]}; maxSize := 0 |} "d")
    as (_ & _ & _ & _ & H5 & _).
  destruct (Add_contract (Ctx:=unit) (Ptr:=option nat) (World:=list string)
              (ForeignErr:=string) stdout
              {| stateMap := {["a"]}; maxSize := 2 |} "b") as (_ & _ & _ & _ & _ & H6).
  split; [apply H1; set_solver|].
  split.
  { apply (H2 ["b"]).
    - reflexivity.
    - repeat (apply NoDup_cons; split; [set_solver|]). apply NoDup_nil. done.
    - intros x Hx. cbn [stateMap]. set_solver.
    - cbn [stateMap maxSize]. rewrite size_singleton. reflexivity. }
  split.
  { apply (H3 2 ["a"; "b"]); [lia | reflexivity |].
    repeat (apply NoDup_cons; split; [set_solver|]). apply NoDup_nil. done. }
  split.
  { apply (H4 2 "a" ["b"]); [lia | reflexivity |].
    repeat (apply NoDup_cons; split; [set_solver|]). apply NoDup_nil. done. }
  split; [apply H5; reflexivity|].
  apply H6.
  - cbn [stateMap]. set_solver.
  - cbn [stateMap maxSize]. rewrite size_singleton. lia.
Defined.

(** * Further properties of the package *)

Section Further.

Context {Ctx Ptr World ForeignErr Writer : Type}.
Variable os_Stdout : Writer.
Variable foreign_Error : ForeignErr -> string.

Local Abbreviation error := (@error ForeignErr).
Local Abbreviation ActionFunc := (@ActionFunc Ctx Ptr World ForeignErr).
Local Abbreviation Action := (@Action Ctx Ptr World ForeignErr).
Local Abbreviation Transition := (@Transition Ctx Ptr World ForeignErr).
Local Abbreviation FSM := (@FSM Ctx Ptr World ForeignErr Writer).
Local Abbreviation TriggerResult := (@TriggerResult Ctx Ptr World ForeignErr Writer).
Local Abbreviation call := (@call Ctx Ptr World ForeignErr).
Local Abbreviation Add := (@Add ForeignErr).
Local Abbreviation AddAll := (@AddAll ForeignErr).

Implicit Types (s reg : States) (state : State) (f g : FSM) (t : Transition).

(** ** The registry *)

(** The three ways [Add] can go. *)
Lemma Add_cases s state :
  (state ∈ stateMap s ∧ Add s state = (Some (already_exists state), s))
  ∨ ((state ∉ stateMap s) ∧ limitReached s = true
     ∧ Add s state = (Some (size_exceeded state), s))
  ∨ ((state ∉ stateMap s) ∧ limitReached s = false
     ∧ Add s state =
         (None, {| stateMap := {[state]} ∪ stateMap s; maxSize := maxSize s |})).
Proof.
  destruct (decide (state ∈ stateMap s)) as [Hin|Hnin].
  - left. split; [done|]. by apply Add_member.
  - right. destruct (limitReached s) eqn:Hlim.
    + left. do 2 (split; [done|]). by apply Add_full.
    + right. do 2 (split; [done|]). by apply Add_fresh.
Qed.

Lemma Add_maxSize s state : maxSize (Add s state).2 = maxSize s.
Proof.
  by destruct (Add_cases s state)
    as [(Hin & ->) | [(Hnin & Hlim & ->) | (Hnin & Hlim & ->)]].
Qed.

Lemma Keys_singleton s (keys : list State) x :
  Keys s keys → stateMap s = {[x]} → keys = [x].
Proof.
  unfold Keys. intros Hp Hx. rewrite Hx, elements_singleton in Hp.
  by apply Permutation_singleton_r.
Qed.

(** X1. [Add] keeps the maximum.  When it returns nil the state is a member
    afterwards, membership of every other state is as before, the registry
    has one more member, and a second [Add] of the same state fails with
    [ErrStateAlreadyExists]; when it returns an error the registry is the
    one it was given. *)
Theorem Add_then_Exists s state :
  maxSize (Add s state).2 = maxSize s
  ∧ ((Add s state).1 = None →
       Exists (Add s state).2 state = true
       ∧ (∀ y, y ≠ state → Exists (Add s state).2 y = Exists s y)
       ∧ len_stateMap (Add s state).2 = len_stateMap s + 1
       ∧ Add (Add s state).2 state = (Some (already_exists state), (Add s state).2))
  ∧ ((Add s state).1 ≠ None → (Add s state).2 = s).
Proof.
  destruct (Add_cases s state) as [(Hin & ->) | [(Hnin & Hlim & ->) | (Hnin & Hlim & ->)]];
    cbn [fst snd]; (split; [done|]); (split; [|done]); try done.
  intros _. split; [|split; [|split]].
  - apply Exists_true. cbn [stateMap]. set_solver.
  - intros y Hy. unfold Exists. cbn [stateMap]. apply bool_decide_ext. set_solver.
  - unfold len_stateMap. cbn [stateMap].
    rewrite size_union by set_solver. rewrite size_singleton. lia.
  - apply Add_member. cbn [stateMap]. set_solver.
Qed.

(** X2. An error of [Add] is a [StateError] for the operation [Add] and the
    state given; what it unwraps to tells which check failed:
    [ErrStateAlreadyExists] when the state was a member, and
    [ErrStateSizeExceeded] when it was not and a positive maximum was
    reached. *)
Theorem Add_error_Unwrap s state (e : error) :
  (Add s state).1 = Some e →
  e = StateErrorRef state "Add" (Unwrap e)
  ∧ ((Unwrap e = Some ErrStateAlreadyExists ∧ state ∈ stateMap s)
     ∨ (Unwrap e = Some ErrStateSizeExceeded ∧ (state ∉ stateMap s)
        ∧ 0 < maxSize s ∧ maxSize s <= len_stateMap s)).
Proof.
  destruct (Add_cases s state) as [(Hin & ->) | [(Hnin & Hlim & ->) | (Hnin & Hlim & ->)]];
    cbn [fst]; intros [= <-].
  - split; [done|]. by left.
  - split; [done|]. right. apply limitReached_true in Hlim as [Hpos Hle].
    by repeat split.
Qed.

Lemma Add_capacity s state :
  0 < maxSize s → len_stateMap s <= maxSize s →
  len_stateMap (Add s state).2 <= maxSize s.
Proof.
  intros Hpos Hle.
  destruct (Add_cases s state) as [(Hin & ->) | [(Hnin & Hlim & ->) | (Hnin & Hlim & ->)]];
    cbn [snd]; try done.
  apply limitReached_false in Hlim. unfold len_stateMap in *. cbn [stateMap].
  rewrite size_union by set_solver. rewrite size_singleton. lia.
Qed.

Lemma AddAll_cons s state (l : list State) :
  AddAll s (state :: l) =
    ((Add s state).1 :: (AddAll (Add s state).2 l).1, (AddAll (Add s state).2 l).2).
Proof.
  simpl. destruct (Add s state) as [err s1]. cbn [fst snd].
  by destruct (AddAll s1 l) as [errs s2].
Qed.

(** What a sequence of [Add] calls keeps. *)
Lemma AddAll_facts (l : list State) : ∀ s,
  length (AddAll s l).1 = length l
  ∧ stateMap s ⊆ stateMap (AddAll s l).2
  ∧ stateMap (AddAll s l).2 ⊆ stateMap s ∪ list_to_set l
  ∧ maxSize (AddAll s l).2 = maxSize s
  ∧ (0 < maxSize s → len_stateMap s <= maxSize s →
     len_stateMap (AddAll s l).2 <= maxSize s).
Proof.
  induction l as [|x l IH]; intros s.
  - simpl. repeat split; set_solver.
  - rewrite AddAll_cons. cbn [fst snd length].
    destruct (IH (Add s x).2) as (Hlen & Hsub & Hsup & Hmax & Hcap).
    assert (Hstep : stateMap s ⊆ stateMap (Add s x).2
                    ∧ stateMap (Add s x).2 ⊆ stateMap s ∪ {[x]}).
    { destruct (Add_cases s x)
        as [(Hin & ->) | [(Hnin & Hlim & ->) | (Hnin & Hlim & ->)]];
        cbn [snd stateMap]; set_solver. }
    destruct Hstep as [H1 H2].
    pose proof (Add_maxSize s x) as Hmax1.
    split; [by rewrite Hlen|]. split; [set_solver|].
    split; [rewrite list_to_set_cons; set_solver|]. split; [congruence|].
    intros Hpos Hle. rewrite <- Hmax1. apply Hcap; rewrite Hmax1; [done|].
    by apply Add_capacity.
Qed.

(** X3. With a positive maximum, a registry within it stays within it under
    any sequence of [Add] calls, repeated states included. *)
Theorem AddAll_capacity (l : list State) s :
  0 < maxSize s → len_stateMap s <= maxSize s →
  len_stateMap (AddAll s l).2 <= maxSize s.
Proof.
  intros Hpos Hle.
  destruct (AddAll_facts l s) as (_ & _ & _ & _ & Hcap). by apply Hcap.
Qed.

(** X4. A sequence of [Add] calls returns one result per call, never takes
    a state out, puts in none but those it was asked to, and keeps the
    maximum. *)
Theorem AddAll_monotone (l : list State) s :
  length (AddAll s l).1 = length l
  ∧ stateMap s ⊆ stateMap (AddAll s l).2
  ∧ stateMap (AddAll s l).2 ⊆ stateMap s ∪ list_to_set l
  ∧ maxSize (AddAll s l).2 = maxSize s.
Proof.
  destruct (AddAll_facts l s) as (Hlen & Hsub & Hsup & Hmax & _).
  by repeat split.
Qed.

(** X5. With a maximum of zero or below, nothing is turned down for room:
    after any sequence of [Add] calls the registry holds every state asked
    for, and each call returned nil or [ErrStateAlreadyExists]. *)
Theorem AddAll_unlimited (l : list State) : ∀ s,
  maxSize s <= 0 →
  stateMap (AddAll s l).2 = stateMap s ∪ list_to_set l
  ∧ Forall2 (λ x err, err = None ∨ err = Some (already_exists x)) l (AddAll s l).1.
Proof.
  induction l as [|x l IH]; intros s Hmax.
  - simpl. split; [set_solver | constructor].
  - rewrite AddAll_cons. cbn [fst snd].
    pose proof (Add_maxSize s x) as Hmax1.
    destruct (IH (Add s x).2) as (Hmap & Hall); [lia|].
    rewrite Hmap, list_to_set_cons.
    destruct (Add_cases s x)
      as [(Hin & HA) | [(Hnin & Hlim & HA) | (Hnin & Hlim & HA)]].
    + rewrite HA in *. cbn [fst snd] in *. split; [set_solver|].
      constructor; [by right | done].
    + apply limitReached_true in Hlim. lia.
    + rewrite HA in *. cbn [fst snd stateMap] in *. split; [set_solver|].
      constructor; [by left | done].
Qed.


(** ** Options and [New] *)

Lemma default_last_cons {A : Type} (d x : A) (l : list A) :
  default d (last (x :: l)) = default x (last l).
Proof. rewrite last_cons. by destruct (last l). Qed.

Lemma options_fold (os : list option_call) : ∀ o0 : @FSMOptions Writer,
  let o := fold_left (λ o opt, opt o) (map option_func os) o0 in
  maxStates o = default (maxStates o0) (last (omap max_of os))
  ∧ LogLevel o = default (LogLevel o0) (last (omap level_of os))
  ∧ LogOutput o = default (LogOutput o0) (last (omap output_of os))
  ∧ UseStdOut o = UseStdOut o0 || existsb is_console os.
Proof.
  induction os as [|x os IH]; intros o0.
  - simpl. by rewrite orb_false_r.
  - simpl fold_left. destruct (IH (option_func x o0)) as (H1 & H2 & H3 & H4).
    cbv zeta. simpl map. simpl fold_left. rewrite H1, H2, H3, H4.
    destruct x; simpl; rewrite ?default_last_cons, ?orb_true_r; done.
Qed.

(** X7. Of the options given to [New], the last [WithMaxStates],
    [WithLogLevel] and [WithLogOutput] each decide their setting, the
    defaults standing when there is none, and [WithLogConsole] anywhere
    turns the console on; the logger is built from these settings and the
    registry, holding the initial state alone, takes its maximum from
    them. *)
Theorem New_options (initialState : State) (os : list option_call) :
  ∃ f : FSM,
    New os_Stdout initialState (map option_func os) = Returns f
    ∧ maxStates (options f) = default 0 (last (omap max_of os))
    ∧ LogLevel (options f) = default zerolog_InfoLevel (last (omap level_of os))
    ∧ LogOutput (options f) = default os_Stdout (last (omap output_of os))
    ∧ UseStdOut (options f) = existsb is_console os
    ∧ logger f = setLogger (UseStdOut (options f)) (LogOutput (options f))
                   (LogLevel (options f))
    ∧ states f = Some {| stateMap := {[initialState]};
                         maxSize := default 0 (last (omap max_of os)) |}.
Proof.
  eexists. split; [apply New_unfold|]. cbn [options logger states].
  destruct (options_fold os (DefaultOptions os_Stdout)) as (H1 & H2 & H3 & H4).
  cbv zeta in *. rewrite H1, H2, H3, H4. cbn [DefaultOptions maxStates LogLevel
    LogOutput UseStdOut]. do 5 (split; [done|]).
  by rewrite union_empty_r_L.
Qed.

(** X8. A machine just built has an empty table and no fallback; [Keys] of
    its registry is the initial state alone; and whatever event is triggered
    on it, [Trigger] returns the payload with the error for no transition
    found and leaves machine and world as they were. *)
Theorem New_fresh (initialState : State) (opts : list FSMOptionFunc)
    ctx event args (w : World) :
  ∃ f : FSM,
    New os_Stdout initialState opts = Returns f
    ∧ transitions f = mk_slice []
    ∧ errorState f = EmptyString ∧ errorHandler f = None
    ∧ (∃ reg, states f = Some reg ∧ ∀ keys, Keys reg keys → keys = [initialState])
    ∧ Trigger f ctx event args w =
        {| ret_args := args;
           ret_err := Some (TransitionErrorRef "no transition found" initialState
                              event None);
           machine := f; world := w |}.
Proof.
  eexists. split; [apply New_unfold|]. cbn [transitions errorState errorHandler states].
  do 3 (split; [done|]). split.
  - eexists. split; [done|]. intros keys Hk.
    apply (Keys_singleton _ keys initialState Hk).
    cbn [stateMap]. by rewrite union_empty_r_L.
  - by rewrite Trigger_no_match.
Qed.

(** ** [Trigger] and the other methods *)

Lemma failed_call_same f g ctx args (e : error) w :
  currentState g = currentState f → errorState g = errorState f →
  errorHandler g = errorHandler f →
  same_outcome (failed_call g ctx args e w) (failed_call f ctx args e w).
Proof.
  intros Hc Hes Hh. unfold same_outcome, failed_call, GetState. simpl.
  rewrite Hh, Hes. do 3 (split; [done|]).
  by destruct (decide (errorState f = EmptyString)).
Qed.

(** What [Trigger] does is decided by the current state, the fallback, and
    the first match of the table. *)
Lemma Trigger_same_head f g ctx event args w :
  currentState g = currentState f → errorState g = errorState f →
  errorHandler g = errorHandler f →
  head (matching (elems (transitions g)) (currentState g) event) =
    head (matching (elems (transitions f)) (currentState f) event) →
  same_outcome (Trigger g ctx event args w) (Trigger f ctx event args w).
Proof.
  intros Hc Hes Hh Hhead.
  destruct (matching (elems (transitions f)) (currentState f) event)
    as [|t later] eqn:Hf;
    destruct (matching (elems (transitions g)) (currentState g) event)
    as [|t' later'] eqn:Hg; try discriminate Hhead.
  - rewrite (Trigger_no_match g ctx event args w Hg).
    rewrite (Trigger_no_match f ctx event args w Hf), Hc.
    by apply failed_call_same.
  - injection Hhead as ->.
    rewrite (Trigger_match g ctx event args w t later' Hg).
    rewrite (Trigger_match f ctx event args w t later Hf).
    destruct (Trigger_run_cases f ctx event (To t) (elems (Actions t)) args w)
      as [(fns & Hb & Hnil & Hrun) | (a & e & w' & Hrun)];
      rewrite (Hrun f eq_refl), (Hrun g Hc).
    + by repeat split.
    + by apply failed_call_same.
Qed.

(** X9. When the chain of the matched transition comes to an action that
    has no function, the actions before it having returned nil, [Trigger]
    returns the [TransitionError] with message [no handler function defined],
    the current state, the event and a nil cause, and the payload those
    actions produced; the world is the one they left, after the error
    handler if there is one; and the current state is the error state when
    one is configured and is unchanged otherwise. *)
Theorem Trigger_unbound_action f ctx event args w t later pre a post fns :
  matching (elems (transitions f)) (currentState f) event = t :: later →
  elems (Actions t) = pre ++ a :: post →
  bound_to pre fns → chain_all_nil ctx fns args w →
  Fn a = None →
  let at_a := fold_left (chain_step ctx) fns (args, w) in
  let r := Trigger f ctx event args w in
  ret_err r =
    Some (TransitionErrorRef "no handler function defined" (currentState f) event None)
  ∧ ret_args r = at_a.1
  ∧ world r = match errorHandler f with
              | Some h => (h ctx at_a.1 at_a.2).2
              | None => at_a.2
              end
  ∧ GetState (machine r) =
      if decide (errorState f = EmptyString) then currentState f else errorState f.
Proof.
  intros Hm Hhs Hb Hnil Ha at_a r. subst r at_a.
  rewrite (Trigger_match f ctx event args w t later Hm), Hhs.
  rewrite (Trigger_run_prefix _ _ _ _ _ fns _ _ _ Hb Hnil).
  rewrite (Trigger_run_unbound _ _ _ _ _ _ _ _ Ha).
  do 3 (split; [done|]). apply failed_call_state.
Qed.

(** X10. [Trigger] assigns to nothing in the machine but the current state:
    the registry, the table, the options, the logger and the fallback are
    those of the call. *)
Theorem Trigger_changes_state_only f ctx event args w :
  machine (Trigger f ctx event args w) =
    SetState f (GetState (machine (Trigger f ctx event args w))).
Proof.
  destruct (Trigger_frame f ctx event args w) as [st ->]. done.
Qed.

(** X11. [Trigger] consults neither the registry, nor the options, nor the
    logger: two machines with the same current state, table and fallback
    give the same result, so a call of [SetLogLevel] or [RegisterState]
    before it changes nothing, and the state it moves to need not be
    registered. *)
Theorem Trigger_ignores_registry f ctx event args w :
  (∀ g, currentState g = currentState f → transitions g = transitions f →
        errorState g = errorState f → errorHandler g = errorHandler f →
        same_outcome (Trigger g ctx event args w) (Trigger f ctx event args w))
  ∧ (∀ level,
       same_outcome (Trigger (SetLogLevel f level) ctx event args w)
                    (Trigger f ctx event args w))
  ∧ (∀ state err f', RegisterState f state = Returns (err, f') →
       same_outcome (Trigger f' ctx event args w) (Trigger f ctx event args w)).
Proof.
  split; [|split].
  - intros g Hc Ht Hes Hh. apply Trigger_same_head; try done. by rewrite Ht, Hc.
  - intros level. by apply Trigger_same_head.
  - intros state err f'. unfold RegisterState.
    destruct (states f) as [reg|]; [|done].
    destruct (Add reg state) as [[e|] reg'];
      intros [= <- <-]; by apply Trigger_same_head.
Qed.

(** X12. A transition added for a state and an event that already have a
    match, or for another state or event than those of the call, changes
    nothing of what [Trigger] does: the table takes it, and the earlier match
    keeps being the one used. *)
Theorem AddTransition_shadowed f from to ev (actions : slice Action) f'
    ctx event args w :
  AddTransition f from to ev actions = Returns f' →
  matching (elems (transitions f)) (currentState f) event ≠ []
  ∨ ¬ (from = currentState f ∧ ev = event) →
  same_outcome (Trigger f' ctx event args w) (Trigger f ctx event args w).
Proof.
  intros Hadd Hold.
  pose proof (AddTransition_matching f from to ev actions f' (currentState f) event
                Hadd) as Hm.
  assert (Hf' : currentState f' = currentState f ∧ errorState f' = errorState f
                ∧ errorHandler f' = errorHandler f).
  { revert Hadd. unfold AddTransition. destruct (transitions f); [done|].
    by intros [= <-]. }
  destruct Hf' as (Hc & Hes & Hh).
  apply Trigger_same_head; try done. rewrite Hc, Hm.
  destruct (matching (elems (transitions f)) (currentState f) event) as [|t later];
    [|done].
  destruct Hold as [Hne|Hno]; [done|]. by rewrite decide_False.
Qed.

(** X13. The fallback plays no part in a call that succeeds: whatever error
    state and handler are set before it, the call returns the same payload
    with a nil error, leaves the same world and moves to the same state, and
    the handler has not run. *)
Theorem Trigger_fallback_inert f ctx event args w es (h : option ActionFunc) :
  ret_err (Trigger f ctx event args w) = None →
  Trigger (SetErrorHandler f es h) ctx event args w =
    {| ret_args := ret_args (Trigger f ctx event args w);
       ret_err := None;
       machine := SetErrorHandler (machine (Trigger f ctx event args w)) es h;
       world := world (Trigger f ctx event args w) |}.
Proof.
  destruct (Trigger_cases f ctx event args w)
    as [(t & later & fns & Hm & Hb & Hnil & Hg) | (a & e & w0 & Hg)];
    rewrite (Hg f eq_refl eq_refl), (Hg (SetErrorHandler f es h) eq_refl eq_refl);
    done.
Qed.

(** X14. When no transition starts from the configured error state, that
    state is a trap: once a call has failed, every later [Trigger] fails
    with the error for no transition found, returns its payload, and leaves
    the machine in the error state. *)
Theorem error_state_absorbing f ctx event args w ctx' event' args' w' :
  errorState f ≠ EmptyString →
  Forall (λ t, From t ≠ errorState f) (elems (transitions f)) →
  ret_err (Trigger f ctx event args w) ≠ None →
  let f1 := machine (Trigger f ctx event args w) in
  let r := Trigger f1 ctx' event' args' w' in
  GetState f1 = errorState f
  ∧ ret_err r =
      Some (TransitionErrorRef "no transition found" (errorState f) event' None)
  ∧ ret_args r = args'
  ∧ machine r = f1.
Proof.
  intros Hes Hfrom. 
  destruct (Trigger_cases f ctx event args w)
    as [(t & later & fns & Hm & Hb & Hnil & Hg) | (a & e & w0 & Hg)]; rewrite (Hg f eq_refl eq_refl); [done|].
  intros _ f1 r. subst f1 r.
  assert (Hm1 : machine (failed_call f ctx a e w0) = set_currentState f (errorState f)).
  { unfold failed_call. cbn [machine]. by rewrite decide_False. }
  rewrite !Hm1. split; [done|].
  rewrite Trigger_no_match.
  - cbn [currentState set_currentState]. do 2 (split; [done|]).
    unfold failed_call. cbn [machine errorState set_currentState].
    by rewrite decide_False.
  - cbn [transitions currentState set_currentState]. apply matching_nil.
    eapply Forall_impl; [exact Hfrom|]. intros t0 Ht [HF _]. done.
Qed.

(** X15. Nothing that comes after the first action to fail, be it for want
    of a function or by the error it returns, has any bearing on the call:
    two transitions whose chains agree up to and including that action give
    the same payload, error, world and current state, whatever follows in
    the chains and whatever their target states are. *)
Theorem Trigger_stops_at_failure f g ctx event args w t t' later later'
    pre a post post' fns :
  currentState g = currentState f → errorState g = errorState f →
  errorHandler g = errorHandler f →
  matching (elems (transitions f)) (currentState f) event = t :: later →
  matching (elems (transitions g)) (currentState g) event = t' :: later' →
  elems (Actions t) = pre ++ a :: post →
  elems (Actions t') = pre ++ a :: post' →
  bound_to pre fns → chain_all_nil ctx fns args w →
  (Fn a = None
   ∨ ∃ fn e, Fn a = Some fn
       ∧ (fn ctx (chain_fold ctx fns args w).1 (chain_fold ctx fns args w).2).1.2
         = Some e) →
  same_outcome (Trigger g ctx event args w) (Trigger f ctx event args w).
Proof.
  intros Hc Hes Hh Hf Hg Ht Ht' Hb Hnil Hfail.
  rewrite (Trigger_match g ctx event args w t' later' Hg), Ht'.
  rewrite (Trigger_match f ctx event args w t later Hf), Ht.
  rewrite !(Trigger_run_prefix _ _ _ _ _ fns _ _ _ Hb Hnil).
  destruct Hfail as [Ha | (fn & e & Ha & He)].
  - rewrite !(Trigger_run_unbound _ _ _ _ _ _ _ _ Ha), Hc.
    by apply failed_call_same.
  - rewrite !(Trigger_run_error _ _ _ _ _ _ _ _ fn e Ha He).
    by apply failed_call_same.
Qed.

(** ** Sequences of calls *)

(** On a machine whose registry and table are not nil, any sequence of
    calls returns; the registry afterwards is what the [RegisterState] calls
    make of it, and the table has the transitions of the [AddTransition]
    calls after those it had. *)
Lemma do_calls_inv (cs : list call) : ∀ g (w : World) reg ts,
  states g = Some reg → transitions g = mk_slice ts →
  ∃ f w',
    do_calls g w cs = Returns (f, w')
    ∧ states f = Some (AddAll reg (omap asked cs)).2
    ∧ transitions f = mk_slice (ts ++ omap added cs)
    ∧ maxStates (options f) = maxStates (options g).
Proof.
  induction cs as [|c cs IH]; intros g w reg ts Hs Ht.
  - exists g, w. simpl. by rewrite app_nil_r.
  - destruct c as [state | from to event actions | ctx event args | st | es h | level].
    + simpl do_calls. rewrite (RegisterState_Add g reg state Hs).
      destruct (IH (set_states g (Some (Add reg state).2)) w (Add reg state).2 ts
                  eq_refl Ht) as (f & w' & Hrun & Hreg & Htab & Hopt).
      exists f, w'. split; [done|]. split; [|done].
      rewrite Hreg. simpl omap. by rewrite AddAll_cons.
    + simpl do_calls. unfold AddTransition. rewrite Ht.
      destruct (IH (set_transitions g
                      (append (mk_slice ts)
                         {| From := from; To := to; Event_ := event;
                            Actions := actions |})) w reg
                  (ts ++ [{| From := from; To := to; Event_ := event;
                             Actions := actions |}]) Hs eq_refl)
        as (f & w' & Hrun & Hreg & Htab & Hopt).
      exists f, w'. split; [done|]. split; [done|]. split; [|done].
      rewrite Htab. simpl omap. by rewrite <- app_assoc.
    + simpl do_calls.
      destruct (Trigger_frame g ctx event args w) as [st Hfr]. rewrite Hfr.
      destruct (IH (set_currentState g st) (world (Trigger g ctx event args w)) reg ts
                  Hs Ht) as (f & w' & Hrun & Hreg & Htab & Hopt).
      by exists f, w'.
    + simpl do_calls.
      destruct (IH (SetState g st) w reg ts Hs Ht)
        as (f & w' & Hrun & Hreg & Htab & Hopt).
      by exists f, w'.
    + simpl do_calls.
      destruct (IH (SetErrorHandler g es h) w reg ts Hs Ht)
        as (f & w' & Hrun & Hreg & Htab & Hopt).
      by exists f, w'.
    + simpl do_calls.
      destruct (IH (SetLogLevel g level) w reg ts Hs Ht)
        as (f & w' & Hrun & Hreg & Htab & Hopt).
      by exists f, w'.
Qed.

(** X16. No call panics on a machine built by [New]: whatever the initial
    state, the options and the calls made afterwards, in whatever order,
    each call returns. *)
Theorem session_no_panic (initialState : State) (opts : list FSMOptionFunc)
    (cs : list call) (w : World) :
  ∃ (f0 f : FSM) (w' : World),
    New os_Stdout initialState opts = Returns f0
    ∧ do_calls f0 w cs = Returns (f, w').
Proof.
  eexists. 
  edestruct (do_calls_inv cs) as (f & w' & Hrun & _);
    [| | exists f, w'; split; [apply New_unfold | exact Hrun]]; reflexivity.
Qed.

(** X17. On a machine built by [New], after any calls: the initial state is
    registered; every registered state is the initial state or one a
    [RegisterState] call asked for, so neither [Trigger], nor [SetState], nor
    [AddTransition], nor [SetErrorHandler] registers anything; and the
    registry keeps the maximum it got from the options and, when that is
    positive, is within it. *)
Theorem session_registry (initialState : State) (opts : list FSMOptionFunc)
    (cs : list call) (w : World) :
  ∃ (f0 f : FSM) (w' : World) (reg : States),
    New os_Stdout initialState opts = Returns f0
    ∧ do_calls f0 w cs = Returns (f, w')
    ∧ states f = Some reg
    ∧ initialState ∈ stateMap reg
    ∧ stateMap reg ⊆ {[initialState]} ∪ list_to_set (omap asked cs)
    ∧ maxSize reg = maxStates (options f0)
    ∧ (0 < maxSize reg → len_stateMap reg <= maxSize reg).
Proof.
  set (o := fold_left (λ o opt, opt o) opts (DefaultOptions os_Stdout)).
  set (reg0 := {| stateMap := {[initialState]} ∪ ∅; maxSize := maxStates o |}).
  eexists.
  edestruct (do_calls_inv cs) as (f & w' & Hrun & Hreg & _);
    [| | exists f, w', (AddAll reg0 (omap asked cs)).2;
          split; [apply New_unfold | split; [exact Hrun | split; [exact Hreg|]]]];
    [reflexivity | reflexivity |].
  destruct (AddAll_facts (omap asked cs) reg0) as (_ & Hsub & Hsup & Hmax & Hcap).
  split; [apply Hsub; unfold reg0; cbn [stateMap]; set_solver|].
  split; [unfold reg0 in Hsup; cbn [stateMap] in Hsup; set_solver|].
  split; [by rewrite Hmax|].
  rewrite Hmax. intros Hpos. apply Hcap; [done|].
  unfold len_stateMap, reg0 in *. cbn [stateMap maxSize] in *.
  rewrite union_empty_r_L, size_singleton. lia.
Qed.

(** X18. On a machine built by [New], after any calls, the table is
    exactly the transitions of the [AddTransition] calls, in the order of the
    calls: nothing else writes to it, nothing is dropped, merged or
    reordered, and states that are not registered are taken as they come. *)
Theorem session_table (initialState : State) (opts : list FSMOptionFunc)
    (cs : list call) (w : World) :
  ∃ (f0 f : FSM) (w' : World),
    New os_Stdout initialState opts = Returns f0
    ∧ do_calls f0 w cs = Returns (f, w')
    ∧ elems (transitions f) = omap added cs.
Proof.
  eexists.
  edestruct (do_calls_inv cs) as (f & w' & Hrun & _ & Htab & _);
    [| | exists f, w'; split; [apply New_unfold | split; [exact Hrun|]]];
    [reflexivity | reflexivity |].
  by rewrite Htab.
Qed.

(** What each call leaves of the settings of the machine. *)
Lemma do_call_settings g (w : World) (c : call) f w' :
  do_call g w c = Returns (f, w') →
  (errorState f, errorHandler f) = default (errorState g, errorHandler g) (fallback_set c)
  ∧ LogLevel (options f) = default (LogLevel (options g)) (level_set c)
  ∧ logThreshold (logger f) = default (logThreshold (logger g)) (level_set c)
  ∧ logSink (logger f) = logSink (logger g)
  ∧ logConsole (logger f) = logConsole (logger g)
  ∧ (moves c = false → currentState f = currentState g).
Proof.
  destruct c as [state | from to event actions | ctx event args | st | es h | level];
    simpl do_call.
  - unfold RegisterState. destruct (states g) as [reg|]; [|done].
    destruct (Add reg state) as [[e|] reg']; by intros [= <- <-].
  - unfold AddTransition. destruct (transitions g); [done|]. by intros [= <- <-].
  - destruct (Trigger_frame g ctx event args w) as [st ->]. by intros [= <- <-].
  - by intros [= <- <-].
  - by intros [= <- <-].
  - by intros [= <- <-].
Qed.

Lemma do_calls_settings (cs : list call) : ∀ g (w : World) f w',
  do_calls g w cs = Returns (f, w') →
  (errorState f, errorHandler f) =
    default (errorState g, errorHandler g) (last (omap fallback_set cs))
  ∧ LogLevel (options f) = default (LogLevel (options g)) (last (omap level_set cs))
  ∧ logThreshold (logger f) =
      default (logThreshold (logger g)) (last (omap level_set cs))
  ∧ logSink (logger f) = logSink (logger g)
  ∧ logConsole (logger f) = logConsole (logger g)
  ∧ (forallb (λ c, negb (moves c)) cs = true → currentState f = currentState g).
Proof.
  induction cs as [|c cs IH]; intros g w f w'.
  - by intros [= <- <-].
  - simpl do_calls. destruct (do_call g w c) as [p|[g1 w1]] eqn:Hc; [done|].
    intros Hrun.
    destruct (do_call_settings g w c g1 w1 Hc) as (H1 & H2 & H3 & H4 & H5 & H6).
    destruct (IH g1 w1 f w' Hrun) as (K1 & K2 & K3 & K4 & K5 & K6).
    rewrite K1, K2, K3, K4, K5, H1, H2, H3, H4, H5.
    split; [|split; [|split; [|split; [done|split; [done|]]]]].
    + simpl omap. destruct (fallback_set c); simpl default;
        by rewrite ?default_last_cons.
    + simpl omap. destruct (level_set c); simpl default;
        by rewrite ?default_last_cons.
    + simpl omap. destruct (level_set c); simpl default;
        by rewrite ?default_last_cons.
    + simpl forallb. intros [Hc1 Hcs]%andb_true_iff.
      rewrite K6 by done. apply H6. by destruct (moves c).
Qed.

(** X20. On a machine built by [New], after any calls: the fallback is the
    one of the last [SetErrorHandler] call, error state and handler together,
    and none when there was no such call; and when no call was a [Trigger] or
    a [SetState], the current state is still the initial state. *)
Theorem session_fallback (initialState : State) (opts : list FSMOptionFunc)
    (cs : list call) (w : World) :
  ∃ (f0 f : FSM) (w' : World),
    New os_Stdout initialState opts = Returns f0
    ∧ do_calls f0 w cs = Returns (f, w')
    ∧ (errorState f, errorHandler f) =
        default (EmptyString, None) (last (omap fallback_set cs))
    ∧ (forallb (λ c, negb (moves c)) cs = true → GetState f = initialState).
Proof.
  eexists.
  edestruct (do_calls_inv cs) as (f & w' & Hrun & _);
    [| | exists f, w'; split; [apply New_unfold | split; [exact Hrun|]]];
    [reflexivity | reflexivity |].
  destruct (do_calls_settings cs _ w f w' Hrun) as (H1 & _ & _ & _ & _ & H6).
  split; [exact H1 | exact H6].
Qed.

(** X21. On a machine built by [New], after any calls, the level in the
    options and the level of the logger are the same: that of the last
    [SetLogLevel] call, and that of the options given to [New] when there was
    none; the output and the format of the logger are those [New] set. *)
Theorem session_log_level (initialState : State) (opts : list FSMOptionFunc)
    (cs : list call) (w : World) :
  ∃ (f0 f : FSM) (w' : World),
    New os_Stdout initialState opts = Returns f0
    ∧ do_calls f0 w cs = Returns (f, w')
    ∧ LogLevel (options f) = default (LogLevel (options f0)) (last (omap level_set cs))
    ∧ logThreshold (logger f) = LogLevel (options f)
    ∧ logSink (logger f) = LogOutput (options f0)
    ∧ logConsole (logger f) = UseStdOut (options f0).
Proof.
  eexists.
  edestruct (do_calls_inv cs) as (f & w' & Hrun & _);
    [| | exists f, w'; split; [apply New_unfold | split; [exact Hrun|]]];
    [reflexivity | reflexivity |].
  destruct (do_calls_settings cs _ w f w' Hrun) as (_ & H2 & H3 & H4 & H5 & _).
  rewrite H2, H3, H4, H5. by repeat split.
Qed.

(** ** Error texts *)

(** X19. The texts of the errors the package makes: an error of [Add] reads
    as a state error naming the state and the operation, followed by the text
    of the sentinel for the check that failed; the error of [Trigger] for no
    match reads as a transition error naming the current state and the event,
    followed by the message and by [<nil>] for the cause it does not have. *)
Theorem Error_texts :
  (∀ s state (e : error),
     (Add s state).1 = Some e →
     Error foreign_Error e =
       String.append "state error in state '"
         (String.append state
            (String.append "' during Add: "
               (if decide (state ∈ stateMap s) then "state already exists"
                else "maximum number of states exceeded"))))
  ∧ (∀ f ctx event args (w : World),
       matching (elems (transitions f)) (currentState f) event = [] →
       ∃ e, ret_err (Trigger f ctx event args w) = Some e
            ∧ Error foreign_Error e =
                String.append "transition error in state '"
                  (String.append (currentState f)
                     (String.append "' on event '"
                        (String.append event "': no transition found: <nil>")))).
Proof.
  split.
  - intros s state e.
    destruct (Add_cases s state)
      as [(Hin & ->) | [(Hnin & Hlim & ->) | (Hnin & Hlim & ->)]];
      cbn [fst]; intros [= <-].
    + by rewrite decide_True.
    + by rewrite decide_False.
  - intros f ctx event args w Hm. eexists.
    rewrite (Trigger_no_match f ctx event args w Hm). split; [reflexivity|]. done.
Qed.

End Further.

(** * The further properties on the sample machines *)

(** The message the package's test of [TransitionError.Error] expects. *)
Example TransitionError_text :
  Error message
    (TransitionErrorRef "test error" "test_state" "test_event"
       (Some (Foreign "underlying error")))
  = "transition error in state 'test_state' on event 'test_event': test error: underlying error".
Proof. reflexivity. Qed.

Lemma Add_then_Exists_witness :
  let s := {| stateMap := {["a"]}; maxSize := 2 |} in
  Exists (Add (ForeignErr:=string) s "b").2 "b" = true
  ∧ Exists (Add (ForeignErr:=string) s "b").2 "a" = Exists s "a"
  ∧ (Add (ForeignErr:=string) s "a").2 = s.
Proof.
  intros s.
  destruct (Add_then_Exists (ForeignErr:=string) s "b") as (_ & Hok & _).
  destruct (Add_then_Exists (ForeignErr:=string) s "a") as (_ & _ & Hfail).
  destruct Hok as (H1 & H2 & _); [reflexivity|].
  split; [exact H1|]. split; [apply H2; discriminate|].
  apply Hfail. discriminate.
Defined.

Lemma Add_error_Unwrap_witness :
  let s := {| stateMap := {["a"]}; maxSize := 1 |} in
  (Add (ForeignErr:=string) s "b").1 = Some (size_exceeded "b")
  ∧ Unwrap (size_exceeded (ForeignErr:=string) "b") = Some ErrStateSizeExceeded.
Proof.
  intros s. split; [reflexivity|].
  destruct (Add_error_Unwrap (ForeignErr:=string) s "b" (size_exceeded "b") eq_refl)
    as (_ & [(_ & Hin) | (H & _)]).
  - exfalso. revert Hin. cbn [stateMap]. set_solver.
  - exact H.
Defined.

Lemma AddAll_capacity_witness :
  len_stateMap (AddAll (ForeignErr:=string) (NewStates 2) ["a"; "b"; "a"; "c"]).2 <= 2.
Proof.
  apply (AddAll_capacity (ForeignErr:=string) ["a"; "b"; "a"; "c"] (NewStates 2)).
  - reflexivity.
  - discriminate.
Defined.

Lemma AddAll_unlimited_witness :
  stateMap (AddAll (ForeignErr:=string) (NewStates (-1)) ["a"; "b"; "a"]).2
    = ∅ ∪ list_to_set ["a"; "b"; "a"].
Proof.
  destruct (AddAll_unlimited (ForeignErr:=string) ["a"; "b"; "a"] (NewStates (-1)))
    as (H & _); [discriminate | exact H].
Defined.


Lemma Trigger_unbound_action_witness :
  let r := Trigger gapped tt "go" (Some 0%nat) ["x"] in
  ret_err r = Some (TransitionErrorRef "no handler function defined" "a" "go" None)
  ∧ ret_args r = Some 0%nat
  ∧ world r = ["x_1"]
  ∧ GetState (machine r) = "a".
Proof.
  apply (Trigger_unbound_action gapped tt "go" (Some 0%nat) ["x"] t_gap []
           [act "one" (suffix "_1")] (unbound "two") [act "three" (suffix "_3")]
           [suffix "_1"]).
  - reflexivity.
  - reflexivity.
  - reflexivity.
  - simpl. split; reflexivity.
  - reflexivity.
Defined.

Lemma Trigger_ignores_registry_witness :
  same_outcome (Trigger (SetLogLevel chained 5) tt "go" (Some 0%nat) ["x"])
               (Trigger chained tt "go" (Some 0%nat) ["x"])
  ∧ same_outcome (Trigger (set_states chained None) tt "go" (Some 0%nat) ["x"])
                 (Trigger chained tt "go" (Some 0%nat) ["x"]).
Proof.
  destruct (Trigger_ignores_registry chained tt "go" (Some 0%nat) ["x"])
    as (Hg & Hlevel & _).
  split; [apply Hlevel|]. apply Hg; reflexivity.
Defined.

Lemma AddTransition_shadowed_witness :
  ∃ f' : Machine,
    AddTransition chained "a" "elsewhere" "go" nil_slice = Returns f'
    ∧ same_outcome (Trigger f' tt "go" (Some 0%nat) ["x"])
                   (Trigger chained tt "go" (Some 0%nat) ["x"]).
Proof.
  eexists. split; [reflexivity|].
  apply (AddTransition_shadowed chained "a" "elsewhere" "go" nil_slice).
  - reflexivity.
  - left. discriminate.
Defined.

Lemma Trigger_fallback_inert_witness :
  ret_err (Trigger chained tt "go" (Some 0%nat) ["x"]) = None
  ∧ world (Trigger (SetErrorHandler chained "failed" (Some failing_handler))
             tt "go" (Some 0%nat) ["x"]) = ["x_1_2_3"].
Proof.
  split; [reflexivity|].
  rewrite (Trigger_fallback_inert chained tt "go" (Some 0%nat) ["x"] "failed"
             (Some failing_handler) eq_refl).
  reflexivity.
Defined.

Lemma error_state_absorbing_witness :
  let f1 := machine (Trigger guarded tt "go" (Some 0%nat) ["x"]) in
  let r := Trigger f1 tt "go" (Some 0%nat) ["y"] in
  GetState f1 = "error_state"
  ∧ ret_err r = Some (TransitionErrorRef "no transition found" "error_state" "go" None)
  ∧ ret_args r = Some 0%nat
  ∧ machine r = f1.
Proof.
  apply (error_state_absorbing guarded tt "go" (Some 0%nat) ["x"] tt "go"
           (Some 0%nat) ["y"]).
  - discriminate.
  - repeat constructor; discriminate.
  - discriminate.
Defined.

Lemma Trigger_stops_at_failure_witness :
  same_outcome (Trigger cut tt "go" (Some 0%nat) ["x"])
               (Trigger breaking tt "go" (Some 0%nat) ["x"]).
Proof.
  apply (Trigger_stops_at_failure breaking cut tt "go" (Some 0%nat) ["x"]
           t_break t_cut [] [] [act "one" (suffix "_1")]
           (act "two" (failing "action failed")) [act "three" (suffix "_3")] []
           [suffix "_1"]); try reflexivity.
  - simpl. split; reflexivity.
  - right. exists (failing "action failed"), (Foreign "action failed").
    split; reflexivity.
Defined.

Lemma Error_texts_witness :
  Error message (size_exceeded "b")
    = "state error in state 'b' during Add: maximum number of states exceeded"
  ∧ ∃ e, ret_err (Trigger (SetState lifecycle "done") tt "start" (Some 0%nat) ["x"])
           = Some e
         ∧ Error message e
           = "transition error in state 'done' on event 'start': no transition found: <nil>".
Proof.
  destruct (Error_texts (Ctx:=unit) (Ptr:=option nat) (World:=list string)
              (Writer:=string) message) as (HAdd & HTrigger).
  split.
  - assert (H : (Add (ForeignErr:=string) {| stateMap := {["a"]}; maxSize := 1 |} "b").1
                 = Some (size_exceeded "b")) by reflexivity.
    rewrite (HAdd _ _ _ H).
    rewrite decide_False by (cbn [stateMap]; set_solver). reflexivity.
  - apply (HTrigger (SetState lifecycle "done") tt "start" (Some 0%nat) ["x"]).
    reflexivity.
Defined.

Lemma session_fallback_witness :
  ∃ (f0 f : Machine) (w' : list string),
    New stdout "a" [] = Returns f0
    ∧ do_calls f0 ["x"] calls = Returns (f, w')
    ∧ errorState f = "failed" ∧ GetState f = "a".
Proof.
  destruct (session_fallback (Ctx:=unit) (Ptr:=option nat) (ForeignErr:=string)
              stdout "a" [] calls ["x"]) as (f0 & f & w' & HNew & Hrun & Hfb & Hst).
  exists f0, f, w'. split; [exact HNew|]. split; [exact Hrun|].
  split; [exact (f_equal fst Hfb) | apply Hst; reflexivity].
Defined.
